(** * pvlt: the secret/label store (pkg/vlt/store/store.go)

    A shallow embedding of the query-and-aggregation engine of the store
    package: the predicate builder [whereGlobOrClause], the row
    aggregator [reduce], the search operations built on
    [secretsJoinLabels], the master-key operations and [WithTx].

    Go values are modelled as follows:
    - [int] as [Z], [string] as [string], a slice as a [list];
    - [map[int]LabeledSecret] as [gmap Z LabeledSecret], the nil map of
      an error return as [None];
    - [error] as an inductive type whose constructors are the package's
      sentinel values, [sql.ErrNoRows], and driver errors; the nil error
      is [None];
    - a call on the [DBTX] interface as a node of a program tree
      ([Prog]), tagged with the handle it is issued on. *)

From Stdlib Require Import ZArith String Ascii List Bool Lia.
From stdpp Require Import base option list gmap fin_maps strings.

Local Open Scope Z_scope.
Local Open Scope string_scope.
Local Open Scope list_scope.

(** ** Errors *)

Inductive error : Type :=
| ErrNoLabelsProvided
| ErrNoIDsProvided
| ErrNoRows
| DriverError (msg : string).

(** [err.Error()] *)
Definition Error (e : error) : string :=
  match e with
  | ErrNoLabelsProvided => "no labels provided"
  | ErrNoIDsProvided => "no IDs provided"
  | ErrNoRows => "sql: no rows in result set"
  | DriverError msg => msg
  end.

(** ** Rows and aggregates *)

Record secretLabelRow : Type := mkRow {
  id : Z;
  name : string;
  label : string
}.

Record LabeledSecret : Type := mkLabeled {
  Name : string;
  Labels : list string
}.

(** One iteration of the loop of [reduce]: [m] is the map built so far,
    [s] the row at hand. *)
Definition reduce_step (m : gmap Z LabeledSecret) (s : secretLabelRow)
  : gmap Z LabeledSecret :=
  let v :=
    match m !! id s with
    | None => {| Name := name s; Labels := [label s] |}
    | Some v => {| Name := Name v; Labels := Labels v ++ [label s] |}
    end in
  <[id s := v]> m.

Definition reduce (secrets : list secretLabelRow) : gmap Z LabeledSecret :=
  fold_left reduce_step secrets ∅.

(** ** Predicate builder *)

(** [strings.Join(elems, sep)] *)
Definition Join (elems : list string) (sep : string) : string :=
  String.concat sep elems.

Definition whereGlobOrClause (col : string) (patterns : list string) : string :=
  match patterns with
  | [] => ""
  | _ =>
      let clauses := map (fun _ : string => col +:+ " GLOB ?") patterns in
      "WHERE " +:+ Join clauses " OR "
  end.

(** ** Bound parameters *)

(** A value passed as [any] to the driver. *)
Inductive any : Type :=
| AStr (s : string)
| AInt (n : Z).

(** Modelled from the spec: [cmdutil.ToAnySlice] (pkg/util) is not part
    of the sources at hand; the parameter sequence is the given list,
    element by element and in the same order.  [box] is the conversion
    of one element to [any]. *)
Definition ToAnySlice {T : Type} (box : T -> any) (s : list T) : list any :=
  map box s.

(** ** The database handle and the store *)

(** What a [DBTX] value can be: the ambient connection pool or a
    transaction opened on it. *)
Inductive DBTX : Type :=
| Conn
| Tx (tx : nat).

Record Store : Type := mkStore { db : DBTX }.

Definition New (db : DBTX) : Store := {| db := db |}.

(** [*Store] values live in a heap; [WithTx] allocates a new cell and
    never reads or writes the receiver [recv]. *)
Definition WithTx (h : gmap positive Store) (recv : positive) (tx : nat)
  : gmap positive Store * positive :=
  let p := fresh (dom h) in
  (<[p := {| db := Tx tx |}]> h, p).

(** [sql.Result] *)
Record Result : Type := mkResult {
  LastInsertId : Z;
  RowsAffected : Z
}.

(** [*sql.Rows]: the rows delivered by [Next], each with the outcome of
    its [Scan] into a [secretLabelRow], and the value of [Err] once
    [Next] has returned false. *)
Record Rows : Type := mkRows {
  fetched : list (secretLabelRow + error);
  iterErr : option error
}.

(** [*sql.Row] scanned into one string. *)
Definition Row : Type := (string + error)%type.

(** A store operation is a tree of calls on the handle; each node holds
    the handle, the query text, the bound parameters and the
    continuation that receives the driver's answer.  The context
    argument is left out: a cancellation reaches the operation as the
    error of the call that was running. *)
Inductive Prog (A : Type) : Type :=
| Ret (a : A)
| ExecContext (h : DBTX) (query : string) (args : list any)
    (k : Result + error -> Prog A)
| QueryContext (h : DBTX) (query : string) (args : list any)
    (k : Rows + error -> Prog A)
| QueryRowContext (h : DBTX) (query : string) (args : list any)
    (k : Row -> Prog A).

Arguments Ret {A} a.
Arguments ExecContext {A} h query args k.
Arguments QueryContext {A} h query args k.
Arguments QueryRowContext {A} h query args k.

(** ** Query texts *)

Definition LF : string := String (ascii_of_nat 10) "".
Definition TAB : string := String (ascii_of_nat 9) "".

(** A raw string literal, line by line. *)
Definition raw (lines : list string) : string := String.concat LF lines.

Definition insertMasterKey : string := raw [
  "";
  TAB +:+ "INSERT INTO";
  TAB +:+ TAB +:+ "master_key (id, key)";
  TAB +:+ "VALUES";
  TAB +:+ TAB +:+ "(0, $1) ON CONFLICT (id) DO NOTHING";
  "" ].

Definition selectMasterKey : string := raw [
  "";
  TAB +:+ "SELECT";
  TAB +:+ TAB +:+ "key";
  TAB +:+ "FROM";
  TAB +:+ TAB +:+ "master_key";
  TAB +:+ "WHERE";
  TAB +:+ TAB +:+ "id = 0";
  "" ].

(** The literal shared by [SecretsByColumn] and [SecretsByLabelsAndName]. *)
Definition selectJoinLabels : string := raw [
  "";
  TAB +:+ "SELECT";
  TAB +:+ TAB +:+ "s.id,";
  TAB +:+ TAB +:+ "s.name AS secret_name,";
  TAB +:+ TAB +:+ "l.name AS label";
  TAB +:+ "FROM";
  TAB +:+ TAB +:+ "secrets s";
  TAB +:+ TAB +:+ "JOIN labels l ON s.id = l.secret_id";
  TAB ].

(** The literal of [SecretsByIDs], up to the opening parenthesis. *)
Definition selectJoinLabelsIn : string := raw [
  "";
  TAB +:+ "SELECT";
  TAB +:+ TAB +:+ "s.id,";
  TAB +:+ TAB +:+ "s.name,";
  TAB +:+ TAB +:+ "l.name AS label";
  TAB +:+ "FROM";
  TAB +:+ TAB +:+ "secrets s";
  TAB +:+ TAB +:+ "JOIN labels l ON s.id = l.secret_id";
  TAB +:+ "WHERE";
  TAB +:+ TAB +:+ "s.id IN (" ].

(** ** Store operations *)

Definition InsertMasterKey (s : Store) (key : string) : Prog (option error) :=
  ExecContext (db s) insertMasterKey [AStr key] (fun r =>
    match r with
    | inr err => Ret (Some err)
    | inl _ => Ret None
    end).

Definition QueryMasterKey (s : Store) : Prog (string * option error) :=
  QueryRowContext (db s) selectMasterKey [] (fun row =>
    match row with
    | inr err => Ret ("", Some err)
    | inl masterKey => Ret (masterKey, None)
    end).

(** The scanning loop of [secretsJoinLabels]: [secrets] is the slice
    built so far; the first failing [Scan] ends the loop with its error. *)
Fixpoint scanLoop (rows : list (secretLabelRow + error))
    (secrets : list secretLabelRow) : list secretLabelRow + error :=
  match rows with
  | [] => inl secrets
  | inr err :: _ => inr err
  | inl secret :: rest => scanLoop rest (secrets ++ [secret])
  end.

Definition secretsJoinLabels (s : Store) (query : string) (args : list any)
  : Prog (option (gmap Z LabeledSecret) * option error) :=
  QueryContext (db s) query args (fun r =>
    match r with
    | inr err => Ret (None, Some err)
    | inl rows =>
        match scanLoop (fetched rows) [] with
        | inr err => Ret (None, Some err)
        | inl secrets =>
            match iterErr rows with
            | Some err => Ret (None, Some err)
            | None => Ret (Some (reduce secrets), None)
            end
        end
    end).

Definition SecretsByColumn (s : Store) (col : string) (patterns : list string)
  : Prog (option (gmap Z LabeledSecret) * option error) :=
  let query := selectJoinLabels +:+ whereGlobOrClause col patterns in
  secretsJoinLabels s query (ToAnySlice AStr patterns).

Definition SecretsByIDs (s : Store) (ids : list Z)
  : Prog (option (gmap Z LabeledSecret) * option error) :=
  match ids with
  | [] => Ret (None, Some ErrNoIDsProvided)
  | _ =>
      let placeholders := map (fun _ : Z => "?") ids in
      let query := selectJoinLabelsIn +:+ Join placeholders "," +:+ ")" in
      secretsJoinLabels s query (ToAnySlice AInt ids)
  end.

Definition SecretsByLabelsAndName (s : Store) (name : string)
    (labels : list string)
  : Prog (option (gmap Z LabeledSecret) * option error) :=
  match labels with
  | [] => Ret (None, Some ErrNoLabelsProvided)
  | _ =>
      let query := selectJoinLabels +:+ whereGlobOrClause "label" labels
                   +:+ "AND secret_name GLOB ?" in
      let args := ToAnySlice AStr labels ++ [AStr name] in
      secretsJoinLabels s query args
  end.

(** The first call an operation issues, if any. *)
Definition firstCall {A : Type} (p : Prog A)
  : option (DBTX * string * list any) :=
  match p with
  | Ret _ => None
  | ExecContext h q args _ => Some (h, q, args)
  | QueryContext h q args _ => Some (h, q, args)
  | QueryRowContext h q args _ => Some (h, q, args)
  end.

(** Every call of the operation, whatever the driver answers, is issued
    on the handle [h]. *)
Inductive RunsOn {A : Type} (h : DBTX) : Prog A -> Prop :=
| RunsOn_Ret a : RunsOn h (Ret a)
| RunsOn_Exec q args k :
    (forall r, RunsOn h (k r)) -> RunsOn h (ExecContext h q args k)
| RunsOn_Query q args k :
    (forall r, RunsOn h (k r)) -> RunsOn h (QueryContext h q args k)
| RunsOn_QueryRow q args k :
    (forall r, RunsOn h (k r)) -> RunsOn h (QueryRowContext h q args k).

(** ** The storage engine

    The store talks to an SQL engine through the handle.  What follows
    is a model of that engine for the statements the store issues: the
    tables, the [GLOB] operator, and an evaluator of the query texts
    above.  Keywords and column names are matched as the store writes
    them; a statement outside this fragment is answered with an error. *)

(** Modelled from the spec: the persisted schema (the migrations are not
    part of the sources at hand).  [master_key] holds at most the row of
    slot 0, so the table is the optional key of that row. *)
Record secretRec : Type := mkSecret {
  sid : Z;
  sname : string;
  spayload : string
}.

Record labelRec : Type := mkLabel {
  lid : Z;
  lname : string;
  lsecret : Z
}.

Record DB : Type := mkDB {
  master_key : option string;
  secrets : list secretRec;
  labels : list labelRec
}.

Definition emptyDB : DB :=
  {| master_key := None; secrets := []; labels := [] |}.

(** *** GLOB *)

Inductive globItem : Type :=
| GStar
| GAny
| GChar (c : ascii)
| GClass (negated : bool) (ranges : list (ascii * ascii))
| GNever.

(** The members of a character class: [a-z] is a range, any other
    character stands for itself. *)
Fixpoint classRanges (cs : list ascii) : list (ascii * ascii) :=
  match cs with
  | [] => []
  | lo :: rest =>
      match rest with
      | "-"%char :: hi :: rest' => (lo, hi) :: classRanges rest'
      | _ => (lo, lo) :: classRanges rest
      end
  end.

Definition mkClass (cs : list ascii) : globItem :=
  match cs with
  | "^"%char :: cs' => GClass true (classRanges cs')
  | _ => GClass false (classRanges cs)
  end.

(** Reads a pattern left to right; [cls] holds the characters of the
    class being read, if one is open.  A class that is never closed
    matches nothing. *)
Fixpoint globItems (cls : option (list ascii)) (p : list ascii)
  : list globItem :=
  match p with
  | [] => match cls with None => [] | Some _ => [GNever] end
  | c :: p' =>
      match cls with
      | Some cs =>
          if (Ascii.eqb c "]" && negb (forallb (Ascii.eqb "^") cs))%bool
          then mkClass cs :: globItems None p'
          else globItems (Some (cs ++ [c])) p'
      | None =>
          if Ascii.eqb c "*" then GStar :: globItems None p'
          else if Ascii.eqb c "?" then GAny :: globItems None p'
          else if Ascii.eqb c "[" then globItems (Some []) p'
          else GChar c :: globItems None p'
      end
  end.

Definition inRange (c : ascii) (r : ascii * ascii) : bool :=
  ((nat_of_ascii (fst r) <=? nat_of_ascii c)%nat
   && (nat_of_ascii c <=? nat_of_ascii (snd r))%nat)%bool.

Fixpoint globRun (items : list globItem) : list ascii -> bool :=
  match items with
  | [] => fun t => match t with [] => true | _ => false end
  | GStar :: items' =>
      fix star (t : list ascii) : bool :=
        (globRun items' t
         || match t with [] => false | _ :: t' => star t' end)%bool
  | GAny :: items' =>
      fun t => match t with [] => false | _ :: t' => globRun items' t' end
  | GChar c :: items' =>
      fun t =>
        match t with
        | [] => false
        | d :: t' => (Ascii.eqb c d && globRun items' t')%bool
        end
  | GClass negated ranges :: items' =>
      fun t =>
        match t with
        | [] => false
        | d :: t' =>
            (xorb negated (existsb (inRange d) ranges)
             && globRun items' t')%bool
        end
  | GNever :: _ => fun _ => false
  end.

(** Modelled from the spec: the engine's [GLOB] operator, shell-style
    and case-sensitive: [*] is any run of characters, [?] any single
    character, [[...]] a character class.  It serves the worked
    examples, whose patterns are letters, [*] and [?] on ASCII text; it
    is no account of the engine's operator on every class or on text
    beyond ASCII, and the general statements take the matching as a
    parameter ([engineEnv]). *)
Definition glob (pattern text : string) : bool :=
  globRun (globItems None (list_ascii_of_string pattern))
          (list_ascii_of_string text).

(** *** Reading a query text *)

Inductive token : Type :=
| TWord (w : string)
| TComma
| TLParen
| TRParen
| TEq
| TParam.

Definition isSpace (c : ascii) : bool :=
  let n := nat_of_ascii c in
  ((n =? 32) || (n =? 9) || (n =? 10) || (n =? 13))%nat%bool.

Definition punct (c : ascii) : option token :=
  if Ascii.eqb c "," then Some TComma
  else if Ascii.eqb c "(" then Some TLParen
  else if Ascii.eqb c ")" then Some TRParen
  else if Ascii.eqb c "=" then Some TEq
  else if Ascii.eqb c "?" then Some TParam
  else None.

Definition flush (w : string) (ts : list token) : list token :=
  match w with
  | EmptyString => ts
  | _ => TWord w :: ts
  end.

(** [w] is the word being read.  A [?] is a token of its own wherever
    it stands, so [?AND] reads as a parameter followed by [AND]. *)
Fixpoint tokenize (w : string) (s : string) : list token :=
  match s with
  | EmptyString => flush w []
  | String c s' =>
      if isSpace c then flush w (tokenize "" s')
      else match punct c with
           | Some t => flush w (t :: tokenize "" s')
           | None => tokenize (w +:+ String c "") s'
           end
  end.

Definition token_eqb (a b : token) : bool :=
  match a, b with
  | TWord x, TWord y => String.eqb x y
  | TComma, TComma | TLParen, TLParen | TRParen, TRParen
  | TEq, TEq | TParam, TParam => true
  | _, _ => false
  end.

Fixpoint stripPrefix (pre ts : list token) : option (list token) :=
  match pre, ts with
  | [], _ => Some ts
  | p :: pre', t :: ts' =>
      if token_eqb p t then stripPrefix pre' ts' else None
  | _ :: _, [] => None
  end.

(** Cuts a token list at every occurrence of the keyword [kw]. *)
Fixpoint splitOn (kw : string) (ts : list token) : list (list token) :=
  match ts with
  | [] => [[]]
  | t :: ts' =>
      match splitOn kw ts' with
      | [] => [[t]]
      | seg :: segs =>
          if token_eqb t (TWord kw) then [] :: seg :: segs
          else (t :: seg) :: segs
      end
  end.

(** A column of the joined row [secrets s JOIN labels l], by the names
    the select list and the tables give it. *)
Inductive column : Type :=
| CSecretId
| CSecretName
| CSecretPayload
| CLabelId
| CLabelName
| CLabelSecretId.

(** [aliased] tells whether the select list names [s.name] as
    [secret_name].  [id] and [name] alone are ambiguous between the two
    tables and resolve to nothing. *)
Definition resolve (aliased : bool) (w : string) : option column :=
  if String.eqb w "label" then Some CLabelName
  else if String.eqb w "secret_name"
       then (if aliased then Some CSecretName else None)
  else if String.eqb w "s.id" then Some CSecretId
  else if String.eqb w "s.name" then Some CSecretName
  else if String.eqb w "s.secret" then Some CSecretPayload
  else if String.eqb w "secret" then Some CSecretPayload
  else if String.eqb w "l.id" then Some CLabelId
  else if String.eqb w "l.name" then Some CLabelName
  else if String.eqb w "l.secret_id" then Some CLabelSecretId
  else if String.eqb w "secret_id" then Some CLabelSecretId
  else None.

Definition columnValue (c : column) (s : secretRec) (l : labelRec) : any :=
  match c with
  | CSecretId => AInt (sid s)
  | CSecretName => AStr (sname s)
  | CSecretPayload => AStr (spayload s)
  | CLabelId => AInt (lid l)
  | CLabelName => AStr (lname l)
  | CLabelSecretId => AInt (lsecret l)
  end.

(** A comparison of the WHERE clause, with the number of parameters it
    takes. *)
Inductive atom : Type :=
| AGlob (c : column)
| AIn (c : column) (n : nat).

(** The list [?,?,...,?)] after the opening parenthesis of [IN]. *)
Fixpoint inList (ts : list token) : option nat :=
  match ts with
  | [TParam; TRParen] => Some 1%nat
  | TParam :: TComma :: ts' => S <$> inList ts'
  | _ => None
  end.

Definition parseAtom (aliased : bool) (ts : list token) : option atom :=
  match ts with
  | [TWord w; TWord kw; TParam] =>
      if String.eqb kw "GLOB" then AGlob <$> resolve aliased w else None
  | TWord w :: TWord kw :: TLParen :: ts' =>
      if String.eqb kw "IN" then
        c ← resolve aliased w; n ← inList ts'; Some (AIn c n)
      else None
  | _ => None
  end.

(** A condition is a disjunction of conjunctions of comparisons: the
    text is cut at [OR] first and each part at [AND], since [AND] binds
    tighter than [OR]. *)
Definition parseCond (aliased : bool) (ts : list token)
  : option (list (list atom)) :=
  mapM (fun disj => mapM (parseAtom aliased) (splitOn "AND" disj))
       (splitOn "OR" ts).

(** A comparison with its parameters bound. *)
Inductive bound : Type :=
| BGlob (c : column) (pattern : any)
| BIn (c : column) (vals : list any).

Definition bindAtom (a : atom) (args : list any)
  : option (bound * list any) :=
  match a with
  | AGlob c =>
      match args with
      | v :: args' => Some (BGlob c v, args')
      | [] => None
      end
  | AIn c n =>
      if (n <=? length args)%nat
      then Some (BIn c (take n args), drop n args)
      else None
  end.

(** Parameters are taken in the order their markers appear in the text. *)
Fixpoint bindConj (cj : list atom) (args : list any)
  : option (list bound * list any) :=
  match cj with
  | [] => Some ([], args)
  | a :: cj' =>
      '(b, args') ← bindAtom a args;
      '(bs, args'') ← bindConj cj' args';
      Some (b :: bs, args'')
  end.

Fixpoint bindCond (cond : list (list atom)) (args : list any)
  : option (list (list bound) * list any) :=
  match cond with
  | [] => Some ([], args)
  | cj :: cond' =>
      '(bs, args') ← bindConj cj args;
      '(bss, args'') ← bindCond cond' args';
      Some (bs :: bss, args'')
  end.

Definition any_eqb (a b : any) : bool :=
  match a, b with
  | AStr x, AStr y => String.eqb x y
  | AInt x, AInt y => Z.eqb x y
  | _, _ => false
  end.

(** [GLOB] is evaluated on text operands only: on a number it selects
    nothing here, and the general engine below ([selectWhere]) treats
    such a query as outside the fragment. *)
Definition evalBound (b : bound) (s : secretRec) (l : labelRec) : bool :=
  match b with
  | BGlob c (AStr pattern) =>
      match columnValue c s l with
      | AStr text => glob pattern text
      | AInt _ => false
      end
  | BGlob _ (AInt _) => false
  | BIn c vals => existsb (any_eqb (columnValue c s l)) vals
  end.

Definition evalCond (cond : list (list bound)) (s : secretRec) (l : labelRec)
  : bool :=
  existsb (forallb (fun b => evalBound b s l)) cond.

(** *** Executing a statement *)

(** The select list and the join of the search queries, as tokens. *)
Definition joinHeader (aliased : bool) : list token :=
  [TWord "SELECT"; TWord "s.id"; TComma; TWord "s.name"]
  ++ (if aliased then [TWord "AS"; TWord "secret_name"] else [])
  ++ [TComma; TWord "l.name"; TWord "AS"; TWord "label";
      TWord "FROM"; TWord "secrets"; TWord "s";
      TWord "JOIN"; TWord "labels"; TWord "l";
      TWord "ON"; TWord "s.id"; TEq; TWord "l.secret_id"].

(** [secrets s JOIN labels l ON s.id = l.secret_id]: an inner join, one
    row per label of each secret; a secret without labels has no row.
    The rows are listed in table order.  No query of the store has an
    ORDER BY, so an engine is free to deliver them in another order:
    the general statements take the rows up to a permutation
    ([planPermutes]). *)
Definition joined (d : DB) : list (secretRec * labelRec) :=
  flat_map
    (fun s =>
       map (pair s)
           (List.filter (fun l => Z.eqb (lsecret l) (sid s)) (labels d)))
    (secrets d).

Definition unsupported : error := DriverError "unsupported statement".
Definition badArgs : error := DriverError "wrong number of arguments".

(** The row the engine delivers for a secret and one of its labels. *)
Definition joinRow (sl : secretRec * labelRec) : secretLabelRow :=
  mkRow (sid (fst sl)) (sname (fst sl)) (lname (snd sl)).

(** The answer to a search: the joined rows that satisfy [keep], each
    decoded without error, and an iteration that ends without error.
    This engine carries out every query of the fragment; the general
    one ([engineQueryIn]) may refuse a query or fail while iterating. *)
Definition selectRows (d : DB) (keep : secretRec -> labelRec -> bool) : Rows :=
  {| fetched :=
       map inl
         (map joinRow
            (List.filter (fun sl => keep (fst sl) (snd sl)) (joined d)));
     iterErr := None |}.

Definition engineWhere (d : DB) (aliased : bool) (rest : list token)
    (args : list any) : Rows + error :=
  match rest with
  | [] =>
      match args with
      | [] => inl (selectRows d (fun _ _ => true))
      | _ => inr badArgs
      end
  | t :: cts =>
      if token_eqb t (TWord "WHERE") then
        match parseCond aliased cts with
        | None => inr unsupported
        | Some cond =>
            match bindCond cond args with
            | Some (bcond, []) => inl (selectRows d (evalCond bcond))
            | _ => inr badArgs
            end
        end
      else inr unsupported
  end.

Definition engineQuery (d : DB) (query : string) (args : list any)
  : Rows + error :=
  let ts := tokenize "" query in
  match stripPrefix (joinHeader true) ts with
  | Some rest => engineWhere d true rest args
  | None =>
      match stripPrefix (joinHeader false) ts with
      | Some rest => engineWhere d false rest args
      | None => inr unsupported
      end
  end.

(** *** Statements on one table *)

(** A stored value. *)
Inductive value : Type :=
| VNull
| VInt (n : Z)
| VText (s : string).

Definition valueOf (a : any) : value :=
  match a with
  | AStr s => VText s
  | AInt n => VInt n
  end.

Definition value_eqb (a b : value) : bool :=
  match a, b with
  | VInt x, VInt y => Z.eqb x y
  | VText x, VText y => String.eqb x y
  | _, _ => false
  end.

(** A row of a table, by column name. *)
Fixpoint field (c : string) (t : list (string * value)) : option value :=
  match t with
  | [] => None
  | (c', v) :: t' => if String.eqb c c' then Some v else field c t'
  end.

(** Modelled from the spec: the tables of the persisted schema, each
    with its columns, its integer key, its unique column sets and the
    columns that refer to the key of another table. *)
Record tableSchema : Type := mkTable {
  tname : string;
  tcols : list string;
  tkey : string;
  tunique : list (list string);
  trefs : list (string * string)
}.

Definition schema : list tableSchema := [
  {| tname := "master_key"; tcols := ["id"; "key"]; tkey := "id";
     tunique := []; trefs := [] |};
  {| tname := "secrets"; tcols := ["id"; "name"; "secret"]; tkey := "id";
     tunique := []; trefs := [] |};
  {| tname := "labels"; tcols := ["id"; "name"; "secret_id"]; tkey := "id";
     tunique := [["name"; "secret_id"]];
     trefs := [("secret_id", "secrets")] |} ].

Definition tableOf (t : string) : option tableSchema :=
  find (fun sc => String.eqb (tname sc) t) schema.

(** The key and the unique column sets of a table. *)
Definition constraints (sc : tableSchema) : list (list string) :=
  [tkey sc] :: tunique sc.

(** The rows of the database, table by table. *)
Definition masterTuple (k : string) : list (string * value) :=
  [("id", VInt 0); ("key", VText k)].

Definition secretTuple (s : secretRec) : list (string * value) :=
  [("id", VInt (sid s)); ("name", VText (sname s));
   ("secret", VText (spayload s))].

Definition labelTuple (l : labelRec) : list (string * value) :=
  [("id", VInt (lid l)); ("name", VText (lname l));
   ("secret_id", VInt (lsecret l))].

Definition tableRows (d : DB) (t : string) : list (list (string * value)) :=
  if String.eqb t "master_key" then
    match master_key d with
    | Some k => [masterTuple k]
    | None => []
    end
  else if String.eqb t "secrets" then map secretTuple (secrets d)
  else if String.eqb t "labels" then map labelTuple (labels d)
  else [].

Definition tupleMaster (t : list (string * value)) : option string :=
  match field "id" t, field "key" t with
  | Some (VInt 0), Some (VText k) => Some k
  | _, _ => None
  end.

Definition tupleSecret (t : list (string * value)) : option secretRec :=
  match field "id" t, field "name" t, field "secret" t with
  | Some (VInt i), Some (VText n), Some (VText p) => Some (mkSecret i n p)
  | _, _, _ => None
  end.

Definition tupleLabel (t : list (string * value)) : option labelRec :=
  match field "id" t, field "name" t, field "secret_id" t with
  | Some (VInt i), Some (VText n), Some (VInt r) => Some (mkLabel i n r)
  | _, _, _ => None
  end.

(** Stores the rows of a table back; rows the database cannot hold (a
    missing name, a master key in another slot than 0) give nothing. *)
Definition setTable (d : DB) (t : string) (rows : list (list (string * value)))
  : option DB :=
  if String.eqb t "master_key" then
    match rows with
    | [] => Some {| master_key := None; secrets := secrets d;
                    labels := labels d |}
    | [r] => k ← tupleMaster r;
             Some {| master_key := Some k; secrets := secrets d;
                     labels := labels d |}
    | _ => None
    end
  else if String.eqb t "secrets" then
    ss ← mapM tupleSecret rows;
    Some {| master_key := master_key d; secrets := ss; labels := labels d |}
  else if String.eqb t "labels" then
    ls ← mapM tupleLabel rows;
    Some {| master_key := master_key d; secrets := secrets d; labels := ls |}
  else None.

(** An operand of a statement: a number, a named parameter such as
    [$1], or the marker [?]. *)
Inductive operand : Type :=
| OLit (n : Z)
| ONamed (nm : string)
| OMark.

Inductive conflictAction : Type :=
| DoNothing
| DoUpdate (cols : list string).

Record insertStmt : Type := mkInsert {
  itable : string;
  icols : list string;
  ivals : list operand;
  iconflict : option (list string * conflictAction)
}.

Record selectStmt : Type := mkSelect {
  scol : string;
  stable : string;
  swhere : string;
  sequals : operand
}.

Definition digit (c : ascii) : option Z :=
  let n := nat_of_ascii c in
  if ((48 <=? n) && (n <=? 57))%nat%bool then Some (Z.of_nat (n - 48)) else None.

Fixpoint parseDigits (acc : Z) (s : string) : option Z :=
  match s with
  | EmptyString => Some acc
  | String c s' => d ← digit c; parseDigits (10 * acc + d) s'
  end.

Definition operandOf (t : token) : option operand :=
  match t with
  | TParam => Some OMark
  | TWord (String c w) =>
      if Ascii.eqb c "$" then Some (ONamed w)
      else OLit <$> parseDigits 0 (String c w)
  | _ => None
  end.

Definition colName (t : token) : option string :=
  match t with
  | TWord w => Some w
  | _ => None
  end.

(** Items separated by commas, up to the closing parenthesis; what
    follows it is returned too. *)
Fixpoint parseItems {A : Type} (item : token -> option A) (ts : list token)
  : option (list A * list token) :=
  match ts with
  | t :: TRParen :: rest => x ← item t; Some ([x], rest)
  | t :: TComma :: rest =>
      x ← item t; '(xs, rest') ← parseItems item rest; Some (x :: xs, rest')
  | _ => None
  end.

Definition isWord (w : string) (t : token) : bool := token_eqb t (TWord w).

(** [c = EXCLUDED.c], one or more. *)
Fixpoint parseAssignments (ts : list token) : option (list string) :=
  match ts with
  | TWord c :: TEq :: TWord e :: rest =>
      if String.eqb e ("EXCLUDED." +:+ c) then
        match rest with
        | [] => Some [c]
        | TComma :: rest' => cs ← parseAssignments rest'; Some (c :: cs)
        | _ => None
        end
      else None
  | _ => None
  end.

Definition parseConflict (ts : list token)
  : option (option (list string * conflictAction)) :=
  match ts with
  | [] => Some None
  | t1 :: t2 :: TLParen :: ts' =>
      if (isWord "ON" t1 && isWord "CONFLICT" t2)%bool then
        '(target, ts'') ← parseItems colName ts';
        match ts'' with
        | [t3; t4] =>
            if (isWord "DO" t3 && isWord "NOTHING" t4)%bool
            then Some (Some (target, DoNothing)) else None
        | t3 :: t4 :: t5 :: ts''' =>
            if (isWord "DO" t3 && isWord "UPDATE" t4 && isWord "SET" t5)%bool
            then cols ← parseAssignments ts''';
                 Some (Some (target, DoUpdate cols))
            else None
        | _ => None
        end
      else None
  | _ => None
  end.

Definition parseInsert (ts : list token) : option insertStmt :=
  match ts with
  | t1 :: t2 :: TWord t :: TLParen :: ts1 =>
      if (isWord "INSERT" t1 && isWord "INTO" t2)%bool then
        '(cols, ts2) ← parseItems colName ts1;
        match ts2 with
        | t3 :: TLParen :: ts3 =>
            if isWord "VALUES" t3 then
              '(vals, ts4) ← parseItems operandOf ts3;
              cf ← parseConflict ts4;
              Some {| itable := t; icols := cols; ivals := vals;
                      iconflict := cf |}
            else None
        | _ => None
        end
      else None
  | _ => None
  end.

Definition parseSelect (ts : list token) : option selectStmt :=
  match ts with
  | [t1; TWord c; t2; TWord t; t3; TWord w; TEq; o] =>
      if (isWord "SELECT" t1 && isWord "FROM" t2 && isWord "WHERE" t3)%bool
      then v ← operandOf o;
           Some {| scol := c; stable := t; swhere := w; sequals := v |}
      else None
  | _ => None
  end.

(** *** Binding and running a statement *)

(** The slot of a named parameter among those met so far. *)
Fixpoint slotOf (nm : string) (slots : list (option string)) (j : nat)
  : option nat :=
  match slots with
  | [] => None
  | Some nm' :: rest =>
      if String.eqb nm nm' then Some j else slotOf nm rest (S j)
  | None :: rest => slotOf nm rest (S j)
  end.

(** Parameters take their slots in the order they first appear in the
    text; the arguments are bound to the slots by position. *)
Fixpoint bindFrom (ops : list operand) (slots : list (option string))
    (args : list any) : option (list value * list (option string)) :=
  match ops with
  | [] => Some ([], slots)
  | OLit n :: rest =>
      '(vs, sl) ← bindFrom rest slots args; Some (VInt n :: vs, sl)
  | OMark :: rest =>
      a ← nth_error args (length slots);
      '(vs, sl) ← bindFrom rest (slots ++ [None]) args;
      Some (valueOf a :: vs, sl)
  | ONamed nm :: rest =>
      match slotOf nm slots 0 with
      | Some j =>
          a ← nth_error args j;
          '(vs, sl) ← bindFrom rest slots args;
          Some (valueOf a :: vs, sl)
      | None =>
          a ← nth_error args (length slots);
          '(vs, sl) ← bindFrom rest (slots ++ [Some nm]) args;
          Some (valueOf a :: vs, sl)
      end
  end.

(** As many arguments as slots, or the driver refuses the call. *)
Definition bindOperands (ops : list operand) (args : list any)
  : option (list value) :=
  '(vs, sl) ← bindFrom ops [] args;
  if (length sl =? length args)%nat then Some vs else None.

(** The rows [a] and [b] hold the same value, not NULL, in each column
    of [cs]. *)
Definition agrees (cs : list string) (a b : list (string * value)) : bool :=
  forallb
    (fun c =>
       match field c a, field c b with
       | Some x, Some y => value_eqb x y
       | _, _ => false
       end) cs.

(** The first constraint an existing row breaks, and that row. *)
Fixpoint firstConflict (css : list (list string)) (new : list (string * value))
    (rows : list (list (string * value)))
  : option (list string * list (string * value)) :=
  match css with
  | [] => None
  | cs :: css' =>
      match find (agrees cs new) rows with
      | Some old => Some (cs, old)
      | None => firstConflict css' new rows
      end
  end.

Definition sameCols (a b : list string) : bool :=
  (forallb (fun c => existsb (String.eqb c) b) a
   && forallb (fun c => existsb (String.eqb c) a) b)%bool.

(** The integer keys a table holds. *)
Definition keysOf (key : string) (rows : list (list (string * value)))
  : list Z :=
  flat_map
    (fun r => match field key r with Some (VInt k) => [k] | _ => [] end) rows.

(** Every reference of the row [new] finds its key: a column of
    [trefs] holds NULL or a key of the table it refers to. *)
Definition refsHold (d : DB) (sc : tableSchema) (new : list (string * value))
  : bool :=
  forallb
    (fun ref =>
       match field (fst ref) new, tableOf (snd ref) with
       | Some (VInt k), Some target =>
           existsb (Z.eqb k) (keysOf (tkey target) (tableRows d (snd ref)))
       | Some VNull, _ => true
       | _, _ => false
       end) (trefs sc).

Definition uniqueFailed : error := DriverError "UNIQUE constraint failed".
Definition foreignKeyFailed : error :=
  DriverError "FOREIGN KEY constraint failed".
Definition noSuchTable : error := DriverError "no such table".
Definition noSuchTarget : error :=
  DriverError
    "ON CONFLICT clause does not match any PRIMARY KEY or UNIQUE constraint".

(** What a statement did: the key of the row it inserted, if it
    inserted one, and the number of rows it changed. *)
Record outcome : Type := mkOutcome {
  newRowid : option Z;
  affected : Z
}.

(** The columns [cols] of [old] take the values they have in [new]. *)
Definition updateFields (cols : list string) (new old : list (string * value))
  : list (string * value) :=
  map (fun cv =>
         if existsb (String.eqb (fst cv)) cols
         then (fst cv, default (snd cv) (field (fst cv) new))
         else cv) old.

(** Runs an INSERT.  [gen] stands for the engine's choice of a key for
    a row that comes without one, from the keys the table holds; it can
    fail.  [fk] tells whether references are enforced.  A row that
    breaks a key or a unique set is handled as the statement's conflict
    clause says: without a clause for that constraint the statement
    fails; DO NOTHING leaves the table as it is; DO UPDATE rewrites the
    row that is in the way.  A failed statement changes nothing. *)
Definition execInsert (gen : list Z -> Z + error) (fk : bool) (d : DB)
    (st : insertStmt) (args : list any) : DB * (outcome + error) :=
  match tableOf (itable st), bindOperands (ivals st) args with
  | None, _ => (d, inr noSuchTable)
  | Some _, None => (d, inr badArgs)
  | Some sc, Some vals =>
      let known c := existsb (String.eqb c) (tcols sc) in
      let targetOk :=
        match iconflict st with
        | Some (target, _) => existsb (sameCols target) (constraints sc)
        | None => true
        end in
      if negb ((length (icols st) =? length vals)%nat
               && forallb known (icols st))
      then (d, inr unsupported)
      else if negb targetOk then (d, inr noSuchTarget)
      else
        let given := combine (icols st) vals in
        let rows := tableRows d (itable st) in
        let key :=
          match field (tkey sc) given with
          | Some (VInt k) => inl k
          | Some _ => inr unsupported
          | None => gen (keysOf (tkey sc) rows)
          end in
        match key with
        | inr err => (d, inr err)
        | inl k =>
            let new :=
              map (fun c =>
                     (c, if String.eqb c (tkey sc) then VInt k
                         else default VNull (field c given)))
                  (tcols sc) in
            match firstConflict (constraints sc) new rows with
            | None =>
                if (fk && negb (refsHold d sc new))%bool
                then (d, inr foreignKeyFailed)
                else
                  match setTable d (itable st) (rows ++ [new]) with
                  | Some d' =>
                      (d', inl {| newRowid := Some k; affected := 1 |})
                  | None => (d, inr unsupported)
                  end
            | Some (cs, old) =>
                match iconflict st with
                | Some (target, action) =>
                    if sameCols target cs then
                      match action with
                      | DoNothing =>
                          (d, inl {| newRowid := None; affected := 0 |})
                      | DoUpdate cols =>
                          let rows' :=
                            map (fun r =>
                                   if agrees cs new r
                                   then updateFields cols new r else r)
                                rows in
                          match setTable d (itable st) rows' with
                          | Some d' =>
                              (d', inl {| newRowid := None; affected := 1 |})
                          | None => (d, inr unsupported)
                          end
                      end
                    else (d, inr uniqueFailed)
                | None => (d, inr uniqueFailed)
                end
            end
        end
  end.

(** Runs a single-row SELECT and scans its column into a string: the
    first row whose column [swhere] holds the operand's value. *)
Definition execSelectRow (d : DB) (st : selectStmt) (args : list any) : Row :=
  match tableOf (stable st), bindOperands [sequals st] args with
  | None, _ => inr noSuchTable
  | Some _, None => inr badArgs
  | Some _, Some [] => inr badArgs
  | Some _, Some (v :: _) =>
      match find (fun r => match field (swhere st) r with
                           | Some x => value_eqb x v
                           | None => false
                           end)
                 (tableRows d (stable st)) with
      | None => inr ErrNoRows
      | Some r =>
          match field (scol st) r with
          | Some (VText s) => inl s
          | _ => inr unsupported
          end
      end
  end.

(** The engine on a statement of the operations below: the text is
    read as an INSERT and run.  These operations give every key
    themselves and write no row that refers to another, so no key is
    generated here and no reference checked; the result reports 0 as
    last insert id when nothing was inserted, which no operation of
    this kind reads. *)
Definition engineExec (d : DB) (query : string) (args : list any)
  : DB * (Result + error) :=
  match parseInsert (tokenize "" query) with
  | None => (d, inr unsupported)
  | Some st =>
      match execInsert (fun _ => inr unsupported) false d st args with
      | (d', inl o) =>
          (d', inl {| LastInsertId := default 0 (newRowid o);
                      RowsAffected := affected o |})
      | (d', inr err) => (d', inr err)
      end
  end.

(** A single-row query: the text is read as a SELECT and run; [Scan]
    reports [sql.ErrNoRows] when there is no row. *)
Definition engineQueryRow (d : DB) (query : string) (args : list any) : Row :=
  match parseSelect (tokenize "" query) with
  | None => inr unsupported
  | Some st => execSelectRow d st args
  end.

(** Runs an operation against the engine.  The result comes with the
    database after the run and the calls made, in order.  Transactions
    are left to the caller: every handle reaches the same database. *)
Fixpoint run {A : Type} (p : Prog A) (d : DB)
  : A * DB * list (DBTX * string * list any) :=
  match p with
  | Ret a => (a, d, [])
  | ExecContext h q args k =>
      let '(d', r) := engineExec d q args in
      let '(a, d'', calls) := run (k r) d' in
      (a, d'', (h, q, args) :: calls)
  | QueryContext h q args k =>
      let '(a, d', calls) := run (k (engineQuery d q args)) d in
      (a, d', (h, q, args) :: calls)
  | QueryRowContext h q args k =>
      let '(a, d', calls) := run (k (engineQueryRow d q args)) d in
      (a, d', (h, q, args) :: calls)
  end.

(** One operation after another on the same database. *)
Definition andThen {A B : Type} (p : Prog A) (q : A -> Prog B) : Prog B :=
  (fix go (p : Prog A) : Prog B :=
     match p with
     | Ret a => q a
     | ExecContext h t args k => ExecContext h t args (fun r => go (k r))
     | QueryContext h t args k => QueryContext h t args (fun r => go (k r))
     | QueryRowContext h t args k =>
         QueryRowContext h t args (fun r => go (k r))
     end) p.

(** What an operation returns on the database [d]. *)
Definition result {A : Type} (p : Prog A) (d : DB) : A := fst (fst (run p d)).

(** ** Observations used in the statements *)

(** The rows of [rows] that carry the id [i], in arrival order. *)
Definition rowsOf (i : Z) (rows : list secretLabelRow) : list secretLabelRow :=
  List.filter (fun r => Z.eqb (id r) i) rows.

(** The number of labels held by a mapping, all ids together. *)
Definition totalLabels (m : gmap Z LabeledSecret) : nat :=
  map_fold (fun _ v acc => (length (Labels v) + acc)%nat) 0%nat m.

(** The number of [?] characters of a text. *)
Fixpoint countMarks (s : string) : nat :=
  match s with
  | EmptyString => 0%nat
  | String c s' =>
      ((if Ascii.eqb c "?" then 1 else 0) + countMarks s')%nat
  end.

Definition queryText {A : Type} (p : Prog A) : option string :=
  (fun c => snd (fst c)) <$> firstCall p.

Definition boundArgs {A : Type} (p : Prog A) : option (list any) :=
  snd <$> firstCall p.

(** The operation once the driver has answered its query with [r]. *)
Definition answerQuery {A : Type} (p : Prog A) (r : Rows + error) : Prog A :=
  match p with
  | QueryContext _ _ _ k => k r
  | _ => p
  end.

(** The result stream breaks: some row fails to decode, or the
    iteration ends in error. *)
Definition scanFails (rows : Rows) : Prop :=
  (exists err, In (inr err) (fetched rows)) \/ is_Some (iterErr rows).

(** The tokens of one comparison [label GLOB ?]. *)
Definition globToks : list token := [TWord "label"; TWord "GLOB"; TParam].

(** A store with one secret that carries the label [work]. *)
Definition notesDB : DB :=
  {| master_key := None;
     secrets := [mkSecret 1 "notes" "hunter2"];
     labels := [mkLabel 1 "work" 1] |}.

(** A store with one labelled and one unlabelled secret. *)
Definition lonelyDB : DB :=
  {| master_key := None;
     secrets := [mkSecret 1 "github" "hunter2"; mkSecret 2 "lonely" "swordfish"];
     labels := [mkLabel 1 "work" 1] |}.

(** ** The operations that read a statement's result *)

(** [sql.Result] with accessors that can fail, as [InsertNewSecret],
    [UpsertSecret] and [InsertLabel] read them. *)
Record ExecResult : Type := mkExecResult {
  lastInsertId : Z + error;
  rowsAffected : Z + error
}.

(** The call tree of these operations and of [Secret]: statements whose
    result is read, and single-row queries. *)
Inductive StmtProg (A : Type) : Type :=
| SRet (a : A)
| SExec (h : DBTX) (query : string) (args : list any)
    (k : ExecResult + error -> StmtProg A)
| SQueryRow (h : DBTX) (query : string) (args : list any)
    (k : Row -> StmtProg A).

Arguments SRet {A} a.
Arguments SExec {A} h query args k.
Arguments SQueryRow {A} h query args k.

Definition insertSecret : string := raw [
  "";
  TAB +:+ "INSERT INTO";
  TAB +:+ TAB +:+ "secrets (name, secret)";
  TAB +:+ "VALUES";
  TAB +:+ TAB +:+ "($1, $2)";
  "" ].

Definition upsertNewSecret : string := raw [
  "";
  TAB +:+ "INSERT INTO";
  TAB +:+ TAB +:+ "secrets (id, secret)";
  TAB +:+ "VALUES";
  TAB +:+ TAB +:+ "($1, $2) ON CONFLICT (id) DO";
  TAB +:+ "UPDATE";
  TAB +:+ "SET";
  TAB +:+ TAB +:+ "secret = EXCLUDED.secret;";
  "" ].

Definition selectSecret : string := raw [
  "";
  TAB +:+ "SELECT";
  TAB +:+ TAB +:+ "secret";
  TAB +:+ "FROM";
  TAB +:+ TAB +:+ "secrets";
  TAB +:+ "WHERE";
  TAB +:+ TAB +:+ "id = $1";
  "" ].

Definition insertLabel : string := raw [
  "";
  TAB +:+ "INSERT INTO";
  TAB +:+ TAB +:+ "labels (name, secret_id)";
  TAB +:+ "VALUES";
  TAB +:+ TAB +:+ "($1, $2) ON CONFLICT (name, secret_id) DO NOTHING";
  "" ].

Definition InsertNewSecret (s : Store) (name secret : string)
  : StmtProg (Z * option error) :=
  SExec (db s) insertSecret [AStr name; AStr secret] (fun r =>
    match r with
    | inr err => SRet (0, Some err)
    | inl res =>
        match lastInsertId res with
        | inr err => SRet (0, Some err)
        | inl id => SRet (id, None)
        end
    end).

(** The id is a string here, as in the source. *)
Definition UpsertSecret (s : Store) (id secret : string)
  : StmtProg (Z * option error) :=
  SExec (db s) upsertNewSecret [AStr id; AStr secret] (fun r =>
    match r with
    | inr err => SRet (0, Some err)
    | inl res =>
        match rowsAffected res with
        | inr err => SRet (0, Some err)
        | inl n => SRet (n, None)
        end
    end).

Definition Secret (s : Store) (id : Z) : StmtProg (string * option error) :=
  SQueryRow (db s) selectSecret [AInt id] (fun row =>
    match row with
    | inr err => SRet ("", Some err)
    | inl secret => SRet (secret, None)
    end).

Definition InsertLabel (s : Store) (name : string) (secretID : Z)
  : StmtProg (Z * option error) :=
  SExec (db s) insertLabel [AStr name; AInt secretID] (fun r =>
    match r with
    | inr err => SRet (0, Some err)
    | inl res =>
        match lastInsertId res with
        | inr err => SRet (0, Some err)
        | inl id => SRet (id, None)
        end
    end).

(** The operation once the driver has answered its statement with [r]. *)
Definition answerExec {A : Type} (p : StmtProg A) (r : ExecResult + error)
  : StmtProg A :=
  match p with
  | SExec _ _ _ k => k r
  | _ => p
  end.

(** The operation once the driver has answered its single-row query. *)
Definition answerRow {A : Type} (p : StmtProg A) (r : Row) : StmtProg A :=
  match p with
  | SQueryRow _ _ _ k => k r
  | _ => p
  end.

Definition firstStmt {A : Type} (p : StmtProg A)
  : option (DBTX * string * list any) :=
  match p with
  | SRet _ => None
  | SExec h q args _ => Some (h, q, args)
  | SQueryRow h q args _ => Some (h, q, args)
  end.

(** Every statement of the operation, whatever the driver answers, is
    issued on the handle [h]. *)
Inductive StmtRunsOn {A : Type} (h : DBTX) : StmtProg A -> Prop :=
| StmtRunsOn_Ret a : StmtRunsOn h (SRet a)
| StmtRunsOn_Exec q args k :
    (forall r, StmtRunsOn h (k r)) -> StmtRunsOn h (SExec h q args k)
| StmtRunsOn_QueryRow q args k :
    (forall r, StmtRunsOn h (k r)) -> StmtRunsOn h (SQueryRow h q args k).

(** Every operation of the store [s], all nine, runs on the handle [h]. *)
Definition storeRunsOn (s : Store) (h : DBTX) : Prop :=
  forall (key col name secret idText : string) (patterns : list string)
         (ids : list Z) (i : Z),
    RunsOn h (InsertMasterKey s key)
    /\ RunsOn h (QueryMasterKey s)
    /\ StmtRunsOn h (InsertNewSecret s name secret)
    /\ StmtRunsOn h (UpsertSecret s idText secret)
    /\ StmtRunsOn h (Secret s i)
    /\ StmtRunsOn h (InsertLabel s name i)
    /\ RunsOn h (SecretsByColumn s col patterns)
    /\ RunsOn h (SecretsByIDs s ids)
    /\ RunsOn h (SecretsByLabelsAndName s name patterns).

(** *** The engine on these statements *)

Definition hasLabel (d : DB) (name : string) (secretID : Z) : bool :=
  existsb (fun l => (String.eqb (lname l) name && Z.eqb (lsecret l) secretID)%bool)
          (labels d).

Definition hasSecret (d : DB) (i : Z) : bool :=
  existsb (fun s => Z.eqb (sid s) i) (secrets d).

Section StmtEngine.

(** The engine's choice of a key for a new row, from the keys the
    table holds; it can fail. *)
Variable genId : list Z -> Z + error.

(** What [LastInsertId] reports after a statement that inserted
    nothing: the id of an earlier insert on the connection, which the
    tables do not determine. *)
Variable staleRowid : DB -> Z.

(** Whether the engine enforces the reference from [labels.secret_id]
    to [secrets.id]. *)
Variable foreignKeys : bool.

(** The engine on a statement whose result is read: the text is read
    as an INSERT and run.  The upsert, whose text ends in [;] and whose
    row comes without a name, is outside the fragment. *)
Definition engineStmtExec (d : DB) (query : string) (args : list any)
  : DB * (ExecResult + error) :=
  match parseInsert (tokenize "" query) with
  | None => (d, inr unsupported)
  | Some st =>
      match execInsert genId foreignKeys d st args with
      | (d', inl o) =>
          (d', inl {| lastInsertId := inl (default (staleRowid d) (newRowid o));
                      rowsAffected := inl (affected o) |})
      | (d', inr err) => (d', inr err)
      end
  end.

Definition engineStmtQueryRow (d : DB) (query : string) (args : list any)
  : Row :=
  engineQueryRow d query args.

Fixpoint runStmt {A : Type} (p : StmtProg A) (d : DB)
  : A * DB * list (DBTX * string * list any) :=
  match p with
  | SRet a => (a, d, [])
  | SExec h q args k =>
      let '(d', r) := engineStmtExec d q args in
      let '(a, d'', calls) := runStmt (k r) d' in
      (a, d'', (h, q, args) :: calls)
  | SQueryRow h q args k =>
      let '(a, d', calls) := runStmt (k (engineStmtQueryRow d q args)) d in
      (a, d', (h, q, args) :: calls)
  end.

(** What the operation returns, and the database it leaves. *)
Definition stmtResult {A : Type} (p : StmtProg A) (d : DB) : A :=
  fst (fst (runStmt p d)).

Definition stmtAfter {A : Type} (p : StmtProg A) (d : DB) : DB :=
  snd (fst (runStmt p d)).

End StmtEngine.

(** A generated key is a key the table does not hold. *)
Definition genFresh (gen : list Z -> Z + error) : Prop :=
  forall ids i, gen ids = inl i -> ~ In i ids.

(** One way to generate keys: one more than the largest key held, and
    a failure once the largest 64-bit integer is held. *)
Definition rowidAfter (ids : list Z) : Z + error :=
  let m := fold_right Z.max 0 ids in
  if Z.ltb m 9223372036854775807 then inl (m + 1)
  else inr (DriverError "database or disk is full").

(** The database an operation of the first kind leaves. *)
Definition after {A : Type} (p : Prog A) (d : DB) : DB := snd (fst (run p d)).

(** ** Command-line helpers (package genericclioptions) *)

(** A flag of a command, as far as the helpers look at it. *)
Record Flag : Type := mkFlag {
  Changed : bool;
  Hidden : bool
}.

(** [*cobra.Command]: its name and its flag set, by flag name. *)
Record Command : Type := mkCommand {
  CmdName : string;
  Flags : gmap string Flag
}.

(** [cmd.Flags().Changed(name)]: false for a flag that does not exist. *)
Definition flagChanged (cmd : Command) (name : string) : bool :=
  match Flags cmd !! name with
  | Some f => Changed f
  | None => false
  end.

(** The error of [RejectDisallowedFlags], by its message. *)
Definition notAllowed (name cmdName : string) : string :=
  "flag --" +:+ name +:+ " is not allowed with '" +:+ cmdName +:+ "' command".

Fixpoint RejectDisallowedFlags (cmd : Command) (disallowed : list string)
  : option string :=
  match disallowed with
  | [] => None
  | name :: rest =>
      if flagChanged cmd name then Some (notAllowed name (CmdName cmd))
      else RejectDisallowedFlags cmd rest
  end.

(** The loop of the help function installed by [MarkFlagsHidden]: a
    name without a flag is skipped. *)
Definition hideFlag (cmd : Command) (n : string) : Command :=
  match Flags cmd !! n with
  | Some flag =>
      {| CmdName := CmdName cmd;
         Flags := <[n := {| Changed := Changed flag; Hidden := true |}]>
                    (Flags cmd) |}
  | None => cmd
  end.

Definition hideFlags (hidden : list string) (cmd : Command) : Command :=
  fold_left hideFlag hidden cmd.

(** A help function acts on the command it is called on; [W] is
    whatever it produces.  [MarkFlagsHidden] takes the help function
    [f] the command has and gives the one it installs. *)
Definition MarkFlagsHidden {W : Type} (f : Command -> list string -> W)
    (hidden : list string) : Command -> list string -> W :=
  fun cmd args => f (hideFlags hidden cmd) args.

(** ** Observations used in the further statements *)

(** A search has ended with a mapping and no error, or with the nil
    mapping and an error. *)
Definition settled (p : Prog (option (gmap Z LabeledSecret) * option error))
  : Prop :=
  (exists m, p = Ret (Some m, None)) \/ (exists err, p = Ret (None, Some err)).

(** ** The engine a search runs against, in general

    What the tables and the text of a query do not determine is left
    open here: the matching [GLOB] performs, the order in which the
    rows of a query are delivered, and whether the engine carries the
    query out at all. *)
Record engineEnv : Type := mkEnv {
  (** [globOf pattern text]: the engine's GLOB *)
  globOf : string -> string -> bool;
  (** the rows selected by a query, in the order the engine's plan for
      that query delivers them *)
  planOf : string -> list (secretRec * labelRec)
           -> list (secretRec * labelRec);
  (** a failure of the engine on a query: it rejects the query, or the
      iteration breaks after so many rows *)
  faultOf : string -> list any -> option (error + nat * error)
}.

(** The plan of a query delivers the rows selected, each once, in some
    order. *)
Definition planPermutes (env : engineEnv) : Prop :=
  forall q rows, Permutation (planOf env q rows) rows.

(** The text matches one of the patterns, for the matching [g]. *)
Definition anyMatch (g : string -> string -> bool) (patterns : list string)
    (text : string) : bool :=
  existsb (fun p => g p text) patterns.

(** A comparison on a joined row; GLOB on text operands, with the
    matching [g]. *)
Definition evalBoundIn (g : string -> string -> bool) (b : bound)
    (s : secretRec) (l : labelRec) : bool :=
  match b with
  | BGlob c (AStr pattern) =>
      match columnValue c s l with
      | AStr text => g pattern text
      | AInt _ => false
      end
  | BGlob _ (AInt _) => false
  | BIn c vals => existsb (any_eqb (columnValue c s l)) vals
  end.

Definition evalCondIn (g : string -> string -> bool)
    (cond : list (list bound)) (s : secretRec) (l : labelRec) : bool :=
  existsb (forallb (fun b => evalBoundIn g b s l)) cond.

(** GLOB compares text with text here; on another operand the query is
    outside the fragment. *)
Definition textGlob (b : bound) : bool :=
  match b with
  | BGlob c (AStr _) =>
      match c with
      | CSecretName | CSecretPayload | CLabelName => true
      | _ => false
      end
  | BGlob _ (AInt _) => false
  | BIn _ _ => true
  end.

(** The joined rows a WHERE clause selects. *)
Definition selectWhere (g : string -> string -> bool) (d : DB)
    (aliased : bool) (rest : list token) (args : list any)
  : list (secretRec * labelRec) + error :=
  match rest with
  | [] =>
      match args with
      | [] => inl (joined d)
      | _ => inr badArgs
      end
  | t :: cts =>
      if token_eqb t (TWord "WHERE") then
        match parseCond aliased cts with
        | None => inr unsupported
        | Some cond =>
            match bindCond cond args with
            | Some (bcond, []) =>
                if forallb (forallb textGlob) bcond then
                  inl (List.filter
                         (fun sl => evalCondIn g bcond (fst sl) (snd sl))
                         (joined d))
                else inr unsupported
            | _ => inr badArgs
            end
        end
      else inr unsupported
  end.

(** The joined rows a search query selects, as a set: their order is
    the plan's. *)
Definition selectIn (g : string -> string -> bool) (d : DB) (query : string)
    (args : list any) : list (secretRec * labelRec) + error :=
  let ts := tokenize "" query in
  match stripPrefix (joinHeader true) ts with
  | Some rest => selectWhere g d true rest args
  | None =>
      match stripPrefix (joinHeader false) ts with
      | Some rest => selectWhere g d false rest args
      | None => inr unsupported
      end
  end.

(** The answer of the engine [env] to a search query. *)
Definition engineQueryIn (env : engineEnv) (d : DB) (query : string)
    (args : list any) : Rows + error :=
  match faultOf env query args, selectIn (globOf env) d query args with
  | Some (inl err), _ => inr err
  | _, inr err => inr err
  | Some (inr (n, err)), inl rows =>
      inl {| fetched := take n (map inl (map joinRow (planOf env query rows)));
             iterErr := Some err |}
  | None, inl rows =>
      inl {| fetched := map inl (map joinRow (planOf env query rows));
             iterErr := None |}
  end.

(** A search run against the engine [env] on the database [d]. *)
Definition searchIn {A : Type} (env : engineEnv) (p : Prog A) (d : DB)
  : Prog A :=
  match p with
  | QueryContext _ q args k => k (engineQueryIn env d q args)
  | _ => p
  end.

(** An engine for the examples: the matching of [glob], the rows in
    reverse table order, no failure. *)
Definition reversingEnv : engineEnv :=
  {| globOf := glob;
     planOf := fun _ rows => rev rows;
     faultOf := fun _ _ => None |}.

(** A store for the examples. *)
Definition teamDB : DB :=
  {| master_key := None;
     secrets := [mkSecret 1 "github" "a"; mkSecret 2 "gitlab" "b";
                 mkSecret 3 "notes" "c"; mkSecret 4 "lonely" "d"];
     labels := [mkLabel 1 "work" 1; mkLabel 2 "dev" 1; mkLabel 3 "home" 2;
                mkLabel 4 "work" 3] |}.

(** The id is one of [ids]. *)
Definition inIds (ids : list Z) (i : Z) : bool := existsb (Z.eqb i) ids.

(** The tokens of the list [?,...,?)] with [n] commas. *)
Definition inToks (n : nat) : list token :=
  concat (repeat [TParam; TComma] n) ++ [TParam; TRParen].

(** The tokens of one comparison [secret_name GLOB ?]. *)
Definition nameToks : list token :=
  [TWord "secret_name"; TWord "GLOB"; TParam].

(** The operation [p], answered with [r], has returned: with 0 when it
    returns an error, and with the error of [r] when [r] is one. *)
Definition zeroOnError (r : ExecResult + error)
    (p : StmtProg (Z * option error)) : Prop :=
  exists v e, p = SRet (v, e)
              /\ (e <> None -> v = 0)
              /\ (forall err, r = inr err -> e = Some err).

(** * Properties *)

(** ** The row aggregator *)

Section Reduce.

Implicit Types (m : gmap Z LabeledSecret) (r : secretLabelRow).
Implicit Types (rows : list secretLabelRow) (i : Z).

Lemma reduce_step_lookup_same m r :
  reduce_step m r !! id r =
    Some match m !! id r with
         | None => {| Name := name r; Labels := [label r] |}
         | Some v => {| Name := Name v; Labels := Labels v ++ [label r] |}
         end.
Proof. unfold reduce_step. by rewrite lookup_insert_eq. Qed.

Lemma reduce_step_lookup_other m r i :
  id r ≠ i -> reduce_step m r !! i = m !! i.
Proof. intros Hne. unfold reduce_step. by rewrite lookup_insert_ne. Qed.

Lemma rowsOf_cons_same r rows : rowsOf (id r) (r :: rows) = r :: rowsOf (id r) rows.
Proof. unfold rowsOf. simpl. by rewrite Z.eqb_refl. Qed.

Lemma rowsOf_cons_other r rows i :
  id r ≠ i -> rowsOf i (r :: rows) = rowsOf i rows.
Proof.
  intros Hne. unfold rowsOf. simpl.
  destruct (Z.eqb_spec (id r) i); [contradiction | reflexivity].
Qed.

(** The loop of [reduce], started from any map [m]. *)
Lemma fold_reduce_step_lookup rows m i :
  fold_left reduce_step rows m !! i =
    match m !! i, rowsOf i rows with
    | Some v, rs =>
        Some {| Name := Name v; Labels := Labels v ++ map label rs |}
    | None, [] => None
    | None, r :: rs =>
        Some {| Name := name r; Labels := map label (r :: rs) |}
    end.
Proof.
  revert m. induction rows as [|r rows IH]; intros m.
  - simpl. destruct (m !! i) as [[n ls]|]; [|done].
    simpl. by rewrite app_nil_r.
  - cbn [fold_left]. rewrite IH. destruct (decide (id r = i)) as [<-|Hne].
    + rewrite reduce_step_lookup_same, rowsOf_cons_same.
      destruct (m !! id r) as [v|]; simpl; [|done].
      by rewrite <- app_assoc.
    + by rewrite reduce_step_lookup_other, rowsOf_cons_other.
Qed.

Lemma reduce_lookup rows i :
  reduce rows !! i =
    match rowsOf i rows with
    | [] => None
    | r :: rs => Some {| Name := name r; Labels := map label (r :: rs) |}
    end.
Proof. unfold reduce. rewrite fold_reduce_step_lookup. by rewrite lookup_empty. Qed.

Lemma totalLabels_insert_fresh m i v :
  m !! i = None ->
  totalLabels (<[i := v]> m) = (length (Labels v) + totalLabels m)%nat.
Proof.
  intros Hi. unfold totalLabels.
  rewrite map_fold_insert_L; [done | | done].
  intros. lia.
Qed.

Lemma totalLabels_reduce_step m r :
  totalLabels (reduce_step m r) = S (totalLabels m).
Proof.
  unfold reduce_step. destruct (m !! id r) as [v|] eqn:Hv.
  - rewrite <- insert_delete_eq.
    rewrite totalLabels_insert_fresh by apply lookup_delete_eq.
    rewrite <- (insert_delete_id m (id r) v) at 2 by done.
    rewrite totalLabels_insert_fresh by apply lookup_delete_eq.
    simpl. rewrite length_app. simpl. lia.
  - by rewrite totalLabels_insert_fresh.
Qed.

Lemma totalLabels_fold rows m :
  totalLabels (fold_left reduce_step rows m)
  = (totalLabels m + length rows)%nat.
Proof.
  revert m. induction rows as [|r rows IH]; intros m; simpl.
  - lia.
  - rewrite IH, totalLabels_reduce_step. lia.
Qed.

Lemma rowsOf_In r rows i : In r (rowsOf i rows) -> In r rows /\ id r = i.
Proof.
  unfold rowsOf. rewrite filter_In. intros [Hin Heq].
  split; [done | by apply Z.eqb_eq].
Qed.

End Reduce.

(** C4: [reduce] maps an id to the name of the first row that carries
    it and to the labels of all its rows, in arrival order and with
    repetitions kept; an id no row carries is absent, and no rows give
    the empty mapping. *)
Theorem reduce_first_name_all_labels :
  (forall (rows : list secretLabelRow) (i : Z),
      reduce rows !! i =
        match rowsOf i rows with
        | [] => None
        | first :: _ =>
            Some {| Name := name first; Labels := map label (rowsOf i rows) |}
        end)
  /\ reduce [] = ∅.
Proof.
  split; [|reflexivity].
  intros rows i. rewrite reduce_lookup. by destruct (rowsOf i rows).
Qed.

(** C9: [reduce] conserves rows: the label lists of the result hold as
    many labels as there are input rows, no label list is empty, and
    every id of the result is the id of some input row. *)
Theorem reduce_conserves_rows (rows : list secretLabelRow) :
  totalLabels (reduce rows) = length rows
  /\ (forall (i : Z) (v : LabeledSecret),
         reduce rows !! i = Some v ->
         Labels v <> [] /\ exists r, In r rows /\ id r = i).
Proof.
  split.
  - unfold reduce. rewrite totalLabels_fold. unfold totalLabels.
    by rewrite map_fold_empty.
  - intros i v. rewrite reduce_lookup.
    destruct (rowsOf i rows) as [|r rs] eqn:Hrs; [done|].
    intros [= <-]. split; [done|].
    exists r. apply rowsOf_In. rewrite Hrs. by left.
Qed.

Lemma reduce_conserves_rows_witness :
  Labels (mkLabeled "a" ["L1"; "L1"]) <> []
  /\ exists r, In r [mkRow 1 "a" "L1"; mkRow 2 "b" "L2"; mkRow 1 "z" "L1"]
               /\ id r = 1.
Proof.
  apply (proj2 (reduce_conserves_rows
                  [mkRow 1 "a" "L1"; mkRow 2 "b" "L2"; mkRow 1 "z" "L1"])
               1 (mkLabeled "a" ["L1"; "L1"])).
  vm_compute. reflexivity.
Defined.

(** ** The predicate builder and the composed queries *)

Section Builder.

Lemma map_const_repeat {T : Type} (c : string) (l : list T) :
  map (fun _ : T => c) l = repeat c (length l).
Proof. induction l as [|x l IH]; simpl; [done | by rewrite IH]. Qed.

Lemma countMarks_append (a b : string) :
  countMarks (a +:+ b) = (countMarks a + countMarks b)%nat.
Proof. induction a as [|c a IH]; simpl; [done | rewrite IH; lia]. Qed.

Lemma countMarks_concat_repeat (sep x : string) (n : nat) :
  countMarks sep = 0%nat ->
  countMarks (String.concat sep (repeat x (S n))) = (S n * countMarks x)%nat.
Proof.
  intros Hsep. induction n as [|n IH].
  - simpl. lia.
  - change (repeat x (S (S n))) with (x :: repeat x (S n)).
    change (String.concat sep (x :: repeat x (S n)))
      with (x +:+ sep +:+ String.concat sep (repeat x (S n))).
    rewrite !countMarks_append, IH, Hsep. lia.
Qed.

(** The clause depends on the patterns through their number only. *)
Lemma whereGlobOrClause_length (col : string) (patterns : list string) :
  whereGlobOrClause col patterns =
    match length patterns with
    | O => ""
    | S n => "WHERE " +:+ Join (repeat (col +:+ " GLOB ?") (S n)) " OR "
    end.
Proof.
  destruct patterns as [|p ps]; [done|].
  unfold whereGlobOrClause. by rewrite map_const_repeat.
Qed.

Lemma whereGlobOrClause_same_length (col : string) (ps qs : list string) :
  length ps = length qs ->
  whereGlobOrClause col ps = whereGlobOrClause col qs.
Proof. intros H. by rewrite !whereGlobOrClause_length, H. Qed.

Lemma SecretsByIDs_query (s : Store) (ids : list Z) :
  queryText (SecretsByIDs s ids) =
    match length ids with
    | O => None
    | S n => Some (selectJoinLabelsIn +:+ Join (repeat "?" (S n)) "," +:+ ")")
    end.
Proof.
  destruct ids as [|i ids]; [done|].
  unfold SecretsByIDs, queryText. simpl firstCall.
  by rewrite map_const_repeat.
Qed.

Lemma SecretsByLabelsAndName_query (s : Store) (n : string) (ls : list string) :
  queryText (SecretsByLabelsAndName s n ls) =
    match ls with
    | [] => None
    | _ => Some (selectJoinLabels +:+ whereGlobOrClause "label" ls
                 +:+ "AND secret_name GLOB ?")
    end.
Proof. by destruct ls. Qed.

End Builder.

(** C5: for a non-empty pattern list the builder returns [WHERE]
    followed by one [col GLOB ?] per pattern, joined by [OR]; the text
    holds one [?] per pattern besides those of the column name itself,
    so exactly as many as patterns for a column name without [?].  The
    searches that use the clause bind the patterns in the order given,
    [SecretsByLabelsAndName] adding the name after them.  For no
    pattern the clause is empty. *)
Theorem whereGlobOrClause_one_marker_per_pattern
    (s : Store) (col name : string) (p : string) (ps : list string) :
  let patterns := p :: ps in
  let n := length patterns in
  whereGlobOrClause col patterns
    = "WHERE " +:+ Join (repeat (col +:+ " GLOB ?") n) " OR "
  /\ countMarks (whereGlobOrClause col patterns)
     = (n * (1 + countMarks col))%nat
  /\ firstCall (SecretsByColumn s col patterns)
     = Some (db s, selectJoinLabels +:+ whereGlobOrClause col patterns,
             map AStr patterns)
  /\ firstCall (SecretsByLabelsAndName s name patterns)
     = Some (db s,
             selectJoinLabels +:+ whereGlobOrClause "label" patterns
               +:+ "AND secret_name GLOB ?",
             map AStr patterns ++ [AStr name])
  /\ whereGlobOrClause col [] = "".
Proof.
  intros patterns n. split; [|split; [|done]].
  - by rewrite whereGlobOrClause_length.
  - rewrite whereGlobOrClause_length. subst n patterns.
    cbn [length]. unfold Join.
    rewrite countMarks_append, countMarks_concat_repeat by done.
    rewrite countMarks_append. simpl countMarks. lia.
Qed.

(** C8: the query text of a search does not depend on the values
    searched for: pattern lists of one length give the same text, and
    so do id lists of one length, whatever the name pattern; the values
    are the bound parameters of the call and nothing else. *)
Theorem query_text_independent_of_values
    (s : Store) (col n1 n2 : string) (ps qs : list string) (ids jds : list Z) :
  length ps = length qs ->
  length ids = length jds ->
  queryText (SecretsByColumn s col ps) = queryText (SecretsByColumn s col qs)
  /\ queryText (SecretsByLabelsAndName s n1 ps)
     = queryText (SecretsByLabelsAndName s n2 qs)
  /\ queryText (SecretsByIDs s ids) = queryText (SecretsByIDs s jds)
  /\ boundArgs (SecretsByColumn s col ps) = Some (map AStr ps)
  /\ boundArgs (SecretsByLabelsAndName s n1 ps)
     = match ps with
       | [] => None
       | _ => Some (map AStr ps ++ [AStr n1])
       end
  /\ boundArgs (SecretsByIDs s ids)
     = match ids with
       | [] => None
       | _ => Some (map AInt ids)
       end.
Proof.
  intros Hps Hids. repeat split.
  - unfold SecretsByColumn, queryText. simpl.
    by rewrite (whereGlobOrClause_same_length col ps qs).
  - rewrite !SecretsByLabelsAndName_query.
    rewrite (whereGlobOrClause_same_length "label" ps qs) by done.
    destruct ps, qs; done.
  - by rewrite !SecretsByIDs_query, Hids.
  - by destruct ps.
  - by destruct ids.
Qed.

Lemma query_text_independent_of_values_witness :
  queryText (SecretsByColumn (New Conn) "label" ["work"; "home"])
  = queryText (SecretsByColumn (New Conn) "label" ["'; DROP TABLE secrets"; "*"])
  /\ queryText (SecretsByIDs (New Conn) [1; 2; 3])
     = queryText (SecretsByIDs (New Conn) [7; 8; 9]).
Proof.
  pose proof (query_text_independent_of_values (New Conn) "label" "git*" "*"
                ["work"; "home"] ["'; DROP TABLE secrets"; "*"]
                [1; 2; 3] [7; 8; 9] eq_refl eq_refl) as H.
  split; [apply H | apply H].
Defined.

(** ** Preconditions and failures of the searches *)

(** C3: with no id [SecretsByIDs] returns [ErrNoIDsProvided], with no
    label pattern [SecretsByLabelsAndName] returns
    [ErrNoLabelsProvided]; both return the nil mapping and make no call
    on the handle, so the database is not touched. *)
Theorem empty_arguments_short_circuit (s : Store) (name : string) (d : DB) :
  SecretsByIDs s [] = Ret (None, Some ErrNoIDsProvided)
  /\ SecretsByLabelsAndName s name [] = Ret (None, Some ErrNoLabelsProvided)
  /\ Error ErrNoIDsProvided = "no IDs provided"
  /\ Error ErrNoLabelsProvided = "no labels provided"
  /\ firstCall (SecretsByIDs s []) = None
  /\ firstCall (SecretsByLabelsAndName s name []) = None
  /\ run (SecretsByIDs s []) d = ((None, Some ErrNoIDsProvided), d, [])
  /\ run (SecretsByLabelsAndName s name []) d
     = ((None, Some ErrNoLabelsProvided), d, []).
Proof. repeat split. Qed.

Section Scan.

Lemma scanLoop_error rows acc err :
  In (inr err) rows -> exists err', scanLoop rows acc = inr err'.
Proof.
  revert acc. induction rows as [|[r|e] rows IH]; intros acc Hin.
  - destruct Hin.
  - destruct Hin as [Heq|Hin]; [discriminate|]. simpl. by apply IH.
  - simpl. by exists e.
Qed.

Lemma scanLoop_all_decoded rows acc :
  scanLoop (map inl rows) acc = inl (acc ++ rows).
Proof.
  revert acc. induction rows as [|r rows IH]; intros acc; simpl.
  - by rewrite app_nil_r.
  - by rewrite IH, <- app_assoc.
Qed.

(** What [secretsJoinLabels] returns once its query is answered. *)
Lemma secretsJoinLabels_fails s q args rows :
  scanFails rows ->
  exists err,
    answerQuery (secretsJoinLabels s q args) (inl rows)
    = Ret (None, Some err).
Proof.
  intros [[e Hin]|[e He]]; simpl.
  - destruct (scanLoop_error _ [] _ Hin) as [e' ->]. by exists e'.
  - destruct (scanLoop (fetched rows) []) as [rs|e'].
    + rewrite He. by exists e.
    + by exists e'.
Qed.

Lemma secretsJoinLabels_query_error s q args err :
  answerQuery (secretsJoinLabels s q args) (inr err) = Ret (None, Some err).
Proof. reflexivity. Qed.

End Scan.

(** C7: when a row of the result stream fails to decode, or the
    iteration ends in error, each of the three searches returns an
    error and the nil mapping; nothing aggregated from the rows decoded
    before the failure is returned. *)
Theorem search_fails_without_partial_result
    (s : Store) (col name : string) (patterns : list string) (ids : list Z)
    (rows : Rows) :
  scanFails rows ->
  (exists err, answerQuery (SecretsByColumn s col patterns) (inl rows)
               = Ret (None, Some err))
  /\ (exists err, answerQuery (SecretsByIDs s ids) (inl rows)
                  = Ret (None, Some err))
  /\ (exists err, answerQuery (SecretsByLabelsAndName s name patterns) (inl rows)
                  = Ret (None, Some err)).
Proof.
  intros Hfail. split; [|split].
  - by apply secretsJoinLabels_fails.
  - destruct ids; [by eexists | by apply secretsJoinLabels_fails].
  - destruct patterns; [by eexists | by apply secretsJoinLabels_fails].
Qed.

Lemma search_fails_without_partial_result_witness :
  exists err,
    answerQuery (SecretsByColumn (New Conn) "label" ["w*"])
      (inl {| fetched := [inl (mkRow 1 "a" "work");
                          inr (DriverError "converting NULL to string");
                          inl (mkRow 2 "b" "work")];
              iterErr := None |})
    = Ret (None, Some err).
Proof.
  apply (search_fails_without_partial_result (New Conn) "label" "n" ["w*"] [1]).
  left. exists (DriverError "converting NULL to string").
  simpl. right. left. reflexivity.
Defined.

(** ** Transactions *)

Section Handles.

Lemma secretsJoinLabels_RunsOn s q args :
  RunsOn (db s) (secretsJoinLabels s q args).
Proof.
  constructor. intros [rows|err]; [|constructor].
  destruct (scanLoop (fetched rows) []); [|constructor].
  destruct (iterErr rows); constructor.
Qed.

Lemma store_runs_on_its_handle s : storeRunsOn s (db s).
Proof.
  intros key col name secret idText patterns ids i.
  split; [|split; [|split; [|split; [|split; [|split; [|split; [|split]]]]]]].
  - constructor. intros [r|err]; constructor.
  - constructor. intros [k|err]; constructor.
  - constructor. intros [res|err]; [|constructor].
    destruct (lastInsertId res); constructor.
  - constructor. intros [res|err]; [|constructor].
    destruct (rowsAffected res); constructor.
  - constructor. intros [payload|err]; constructor.
  - constructor. intros [res|err]; [|constructor].
    destruct (lastInsertId res); constructor.
  - apply secretsJoinLabels_RunsOn.
  - destruct ids; [constructor | apply secretsJoinLabels_RunsOn].
  - destruct patterns; [constructor | apply secretsJoinLabels_RunsOn].
Qed.

End Handles.

(** C10: [WithTx] returns a store in a fresh cell, bound to the
    transaction, and leaves every store of the heap as it was, the
    receiver included: the receiver's operations still run on its own
    handle, those of the returned store on the transaction. *)
Theorem WithTx_leaves_receiver
    (h : gmap positive Store) (recv : positive) (s : Store) (tx : nat) :
  h !! recv = Some s ->
  let h' := fst (WithTx h recv tx) in
  let p := snd (WithTx h recv tx) in
  h' !! recv = Some s
  /\ p <> recv
  /\ h !! p = None
  /\ h' !! p = Some {| db := Tx tx |}
  /\ (forall q, q <> p -> h' !! q = h !! q)
  /\ storeRunsOn s (db s)
  /\ storeRunsOn {| db := Tx tx |} (Tx tx).
Proof.
  intros Hs h' p. subst h' p. unfold WithTx. cbn [fst snd].
  assert (Hfresh : h !! fresh (dom h) = None).
  { apply not_elem_of_dom. apply is_fresh. }
  assert (Hne : fresh (dom h) <> recv) by congruence.
  split; [|split; [|split; [|split; [|split; [|split]]]]].
  - by rewrite lookup_insert_ne.
  - done.
  - done.
  - by rewrite lookup_insert_eq.
  - intros q Hq. by rewrite lookup_insert_ne.
  - apply store_runs_on_its_handle.
  - apply (store_runs_on_its_handle {| db := Tx tx |}).
Qed.

Lemma WithTx_leaves_receiver_witness :
  fst (WithTx {[ 1%positive := New Conn ]} 1%positive 7) !! 1%positive
  = Some (New Conn).
Proof.
  apply (WithTx_leaves_receiver {[ 1%positive := New Conn ]} 1%positive
           (New Conn) 7).
  reflexivity.
Defined.

(** ** The master key *)

Section MasterKey.

Lemma parse_insertMasterKey :
  parseInsert (tokenize "" insertMasterKey)
  = Some {| itable := "master_key"; icols := ["id"; "key"];
            ivals := [OLit 0; ONamed "1"];
            iconflict := Some (["id"], DoNothing) |}.
Proof. by vm_compute. Qed.

Lemma parse_selectMasterKey :
  parseSelect (tokenize "" selectMasterKey)
  = Some {| scol := "key"; stable := "master_key"; swhere := "id";
            sequals := OLit 0 |}.
Proof. by vm_compute. Qed.

Lemma engineExec_insertMasterKey d key :
  engineExec d insertMasterKey [AStr key] =
    match master_key d with
    | Some _ => (d, inl {| LastInsertId := 0; RowsAffected := 0 |})
    | None =>
        ({| master_key := Some key; secrets := secrets d; labels := labels d |},
         inl {| LastInsertId := 0; RowsAffected := 1 |})
    end.
Proof.
  unfold engineExec. rewrite parse_insertMasterKey.
  unfold execInsert. cbn. destruct (master_key d); reflexivity.
Qed.

Lemma engineQueryRow_selectMasterKey d :
  engineQueryRow d selectMasterKey [] =
    match master_key d with
    | Some key => inl key
    | None => inr ErrNoRows
    end.
Proof.
  unfold engineQueryRow. rewrite parse_selectMasterKey.
  unfold execSelectRow. cbn. destruct (master_key d); reflexivity.
Qed.

Lemma run_InsertMasterKey s d key :
  run (InsertMasterKey s key) d =
    (None,
     match master_key d with
     | Some _ => d
     | None =>
         {| master_key := Some key; secrets := secrets d; labels := labels d |}
     end,
     [(db s, insertMasterKey, [AStr key])]).
Proof.
  unfold InsertMasterKey. cbn [run].
  rewrite engineExec_insertMasterKey. by destruct (master_key d).
Qed.

Lemma run_QueryMasterKey s d :
  run (QueryMasterKey s) d =
    (match master_key d with
     | Some key => (key, None)
     | None => ("", Some ErrNoRows)
     end,
     d,
     [(db s, selectMasterKey, [])]).
Proof.
  unfold QueryMasterKey. cbn [run].
  rewrite engineQueryRow_selectMasterKey. by destruct (master_key d).
Qed.

Lemma run_andThen {A B : Type} (p : Prog A) (q : A -> Prog B) d :
  run (andThen p q) d =
    let '(a, d', calls) := run p d in
    let '(b, d'', calls') := run (q a) d' in
    (b, d'', calls ++ calls').
Proof.
  revert d. induction p as [a|h t args k IH|h t args k IH|h t args k IH];
    intros d.
  - simpl. by destruct (run (q a) d) as [[b d''] calls'].
  - change (andThen (ExecContext h t args k) q)
      with (ExecContext h t args (fun r => andThen (k r) q)).
    cbn [run]. destruct (engineExec d t args) as [d' r].
    rewrite IH. destruct (run (k r) d') as [[a d1] c1].
    by destruct (run (q a) d1) as [[b d2] c2].
  - change (andThen (QueryContext h t args k) q)
      with (QueryContext h t args (fun r => andThen (k r) q)).
    cbn [run]. rewrite IH.
    destruct (run (k (engineQuery d t args)) d) as [[a d1] c1].
    by destruct (run (q a) d1) as [[b d2] c2].
  - change (andThen (QueryRowContext h t args k) q)
      with (QueryRowContext h t args (fun r => andThen (k r) q)).
    cbn [run]. rewrite IH.
    destruct (run (k (engineQueryRow d t args)) d) as [[a d1] c1].
    by destruct (run (q a) d1) as [[b d2] c2].
Qed.

End MasterKey.

(** C6: on a store that holds a master key, [InsertMasterKey] with any
    key succeeds and leaves the database as it was, so [QueryMasterKey]
    still returns the key held before; and on the empty store,
    inserting a key and then another leaves [QueryMasterKey] returning
    the first. *)
Theorem InsertMasterKey_keeps_first_key
    (s : Store) (d : DB) (k0 key k1 k2 : string) :
  master_key d = Some k0 ->
  run (InsertMasterKey s key) d
    = (None, d, [(db s, insertMasterKey, [AStr key])])
  /\ result (andThen (InsertMasterKey s key) (fun _ => QueryMasterKey s)) d
     = (k0, None)
  /\ result (andThen (InsertMasterKey s k1) (fun e1 =>
             andThen (InsertMasterKey s k2) (fun e2 =>
             andThen (QueryMasterKey s) (fun r => Ret (e1, e2, r)))))
            emptyDB
     = (None, None, (k1, None)).
Proof.
  intros Hk. split; [|split].
  - by rewrite run_InsertMasterKey, Hk.
  - unfold result. rewrite run_andThen, run_InsertMasterKey, Hk.
    by rewrite run_QueryMasterKey, Hk.
  - unfold result.
    rewrite run_andThen, run_InsertMasterKey. cbn [master_key emptyDB].
    rewrite run_andThen, run_InsertMasterKey. cbn [master_key].
    rewrite run_andThen, run_QueryMasterKey. reflexivity.
Qed.

Lemma InsertMasterKey_keeps_first_key_witness :
  result (andThen (InsertMasterKey (New Conn) "k2")
                  (fun _ => QueryMasterKey (New Conn)))
         {| master_key := Some "k1"; secrets := []; labels := [] |}
  = ("k1", None).
Proof.
  apply (InsertMasterKey_keeps_first_key (New Conn)
           {| master_key := Some "k1"; secrets := []; labels := [] |}
           "k1" "k2" "k1" "k2").
  reflexivity.
Defined.

(** ** What the searches select *)

Section Search.

Lemma filter_all {T : Type} (l : list T) : List.filter (fun _ => true) l = l.
Proof. induction l as [|x l IH]; simpl; [done | by rewrite IH]. Qed.

(** A search whose query the engine answers with the rows kept by
    [keep] returns their aggregate. *)
Lemma run_secretsJoinLabels s d q args keep :
  engineQuery d q args = inl (selectRows d keep) ->
  run (secretsJoinLabels s q args) d =
    ((Some (reduce (map joinRow
              (List.filter (fun sl => keep (fst sl) (snd sl)) (joined d)))),
      None),
     d, [(db s, q, args)]).
Proof.
  intros Hq. unfold secretsJoinLabels. cbn [run]. rewrite Hq.
  cbn [fetched iterErr selectRows].
  rewrite scanLoop_all_decoded. reflexivity.
Qed.

(** With no pattern there is no WHERE clause: every row of the join. *)
Lemma engineQuery_no_pattern d col :
  engineQuery d (selectJoinLabels +:+ whereGlobOrClause col []) []
  = inl (selectRows d (fun _ _ => true)).
Proof. reflexivity. Qed.

(** One label pattern: the label and the name must both match. *)
Lemma engineQuery_one_label d name l1 :
  engineQuery d
    (selectJoinLabels +:+ whereGlobOrClause "label" [l1]
       +:+ "AND secret_name GLOB ?")
    [AStr l1; AStr name]
  = inl (selectRows d
           (evalCond [[BGlob CLabelName (AStr l1);
                       BGlob CSecretName (AStr name)]])).
Proof. reflexivity. Qed.

(** Two label patterns: [AND] binds tighter than [OR], so the name is
    tested together with the last label pattern only. *)
Lemma engineQuery_two_labels d name l1 l2 :
  engineQuery d
    (selectJoinLabels +:+ whereGlobOrClause "label" [l1; l2]
       +:+ "AND secret_name GLOB ?")
    [AStr l1; AStr l2; AStr name]
  = inl (selectRows d
           (evalCond [[BGlob CLabelName (AStr l1)];
                      [BGlob CLabelName (AStr l2);
                       BGlob CSecretName (AStr name)]])).
Proof. reflexivity. Qed.

(** The composed text of [SecretsByLabelsAndName], read token by token,
    for any number of label patterns. *)
Lemma append_assoc (a b c : string) : (a +:+ b) +:+ c = a +:+ (b +:+ c).
Proof.
  induction a as [|x a IH]; [reflexivity|].
  change (String x ((a +:+ b) +:+ c) = String x (a +:+ b +:+ c)).
  by rewrite IH.
Qed.

Lemma tokenize_header (x : string) :
  tokenize "" (selectJoinLabels +:+ x) = joinHeader true ++ tokenize "" x.
Proof. reflexivity. Qed.

Lemma tokenize_where (x : string) :
  tokenize "" ("WHERE " +:+ x) = TWord "WHERE" :: tokenize "" x.
Proof. reflexivity. Qed.

Lemma tokenize_glob (x : string) :
  tokenize "" ("label GLOB ?" +:+ x) = globToks ++ tokenize "" x.
Proof. reflexivity. Qed.

Lemma tokenize_or (x : string) :
  tokenize "" (" OR " +:+ x) = TWord "OR" :: tokenize "" x.
Proof. reflexivity. Qed.

Lemma tokenize_clauses (n : nat) (tail : string) :
  tokenize "" (Join (repeat "label GLOB ?" (S n)) " OR " +:+ tail)
  = concat (repeat (globToks ++ [TWord "OR"]) n) ++ globToks
      ++ tokenize "" tail.
Proof.
  induction n as [|n IH].
  - reflexivity.
  - change (Join (repeat "label GLOB ?" (S (S n))) " OR ")
      with ("label GLOB ?" +:+ " OR "
              +:+ Join (repeat "label GLOB ?" (S n)) " OR ").
    rewrite !append_assoc, tokenize_glob, tokenize_or, IH. reflexivity.
Qed.

Lemma splitOn_nonempty kw ts : splitOn kw ts <> [].
Proof.
  induction ts as [|t ts IH]; simpl; [done|].
  destruct (splitOn kw ts); [done|]. by destruct (token_eqb t (TWord kw)).
Qed.

Lemma splitOn_glob_or (rest : list token) :
  splitOn "OR" (globToks ++ [TWord "OR"] ++ rest)
  = globToks :: splitOn "OR" rest.
Proof.
  pose proof (splitOn_nonempty "OR" rest) as Hne.
  simpl. destruct (splitOn "OR" rest); done.
Qed.

Lemma splitOn_clauses (n : nat) (final : list token) :
  splitOn "OR" (concat (repeat (globToks ++ [TWord "OR"]) n) ++ final)
  = repeat globToks n ++ splitOn "OR" final.
Proof.
  induction n as [|n IH]; [done|].
  cbn [repeat concat]. rewrite <- !app_assoc.
  rewrite (splitOn_glob_or _), IH. reflexivity.
Qed.

Lemma parseCond_clauses (n : nat) :
  parseCond true
    (concat (repeat (globToks ++ [TWord "OR"]) n) ++ globToks
       ++ [TWord "AND"; TWord "secret_name"; TWord "GLOB"; TParam])
  = Some (repeat [AGlob CLabelName] n
            ++ [[AGlob CLabelName; AGlob CSecretName]]).
Proof.
  unfold parseCond. rewrite splitOn_clauses.
  apply mapM_Some_2. apply Forall2_app.
  - induction n as [|n IH]; constructor; [reflexivity | exact IH].
  - constructor; [reflexivity | constructor].
Qed.

Lemma bindCond_clauses (ls : list string) (l name : string) :
  bindCond (repeat [AGlob CLabelName] (length ls)
              ++ [[AGlob CLabelName; AGlob CSecretName]])
           (map AStr (ls ++ [l]) ++ [AStr name])
  = Some (map (fun p => [BGlob CLabelName (AStr p)]) ls
            ++ [[BGlob CLabelName (AStr l); BGlob CSecretName (AStr name)]],
          []).
Proof.
  induction ls as [|p ls IH]; [reflexivity|].
  change (bindCond
            ([AGlob CLabelName]
               :: (repeat [AGlob CLabelName] (length ls)
                   ++ [[AGlob CLabelName; AGlob CSecretName]]))
            (AStr p :: (map AStr (ls ++ [l]) ++ [AStr name]))
          = Some ([BGlob CLabelName (AStr p)]
                    :: (map (fun p => [BGlob CLabelName (AStr p)]) ls
                        ++ [[BGlob CLabelName (AStr l);
                             BGlob CSecretName (AStr name)]]), [])).
  cbn [bindCond bindConj bindAtom mbind option_bind].
  rewrite IH. reflexivity.
Qed.

(** The condition the engine evaluates for the label patterns
    [ls ++ [l]] and the name pattern [name]: each pattern of [ls] is a
    disjunct of its own, and the name is tested in the disjunct of the
    last pattern [l] only. *)
Lemma engineQuery_labels_and_name d (ls : list string) (l name : string) :
  engineQuery d
    (selectJoinLabels +:+ whereGlobOrClause "label" (ls ++ [l])
       +:+ "AND secret_name GLOB ?")
    (ToAnySlice AStr (ls ++ [l]) ++ [AStr name])
  = inl (selectRows d
           (evalCond
              (map (fun p => [BGlob CLabelName (AStr p)]) ls
               ++ [[BGlob CLabelName (AStr l);
                    BGlob CSecretName (AStr name)]]))).
Proof.
  unfold engineQuery.
  rewrite whereGlobOrClause_length, length_app, Nat.add_1_r.
  rewrite tokenize_header, append_assoc, tokenize_where, tokenize_clauses.
  change (tokenize "" "AND secret_name GLOB ?")
    with [TWord "AND"; TWord "secret_name"; TWord "GLOB"; TParam].
  change (stripPrefix (joinHeader true) (joinHeader true ++ ?r)) with (Some r).
  cbn [engineWhere token_eqb].
  rewrite parseCond_clauses. unfold ToAnySlice. rewrite bindCond_clauses.
  reflexivity.
Qed.

Lemma SecretsByLabelsAndName_selects s d (ls : list string) (l name : string) :
  result (SecretsByLabelsAndName s name (ls ++ [l])) d
  = (Some (reduce (map joinRow
             (List.filter
                (fun sl =>
                   evalCond
                     (map (fun p => [BGlob CLabelName (AStr p)]) ls
                      ++ [[BGlob CLabelName (AStr l);
                           BGlob CSecretName (AStr name)]])
                     (fst sl) (snd sl))
                (joined d)))),
     None).
Proof.
  unfold result, SecretsByLabelsAndName.
  destruct (ls ++ [l]) as [|x xs] eqn:Hls; [by destruct ls|].
  rewrite <- Hls.
  by rewrite (run_secretsJoinLabels s d _ _ _ (engineQuery_labels_and_name d ls l name)).
Qed.

Lemma SecretsByColumn_no_pattern s d col :
  result (SecretsByColumn s col []) d
  = (Some (reduce (map joinRow (joined d))), None).
Proof.
  unfold result, SecretsByColumn.
  rewrite (run_secretsJoinLabels s d _ _ (fun _ _ => true))
    by apply engineQuery_no_pattern.
  cbn [fst]. by rewrite filter_all.
Qed.

Lemma joined_In d s l :
  In (s, l) (joined d) -> In l (labels d) /\ lsecret l = sid s.
Proof.
  unfold joined. rewrite in_flat_map. intros (s' & _ & Hin).
  apply in_map_iff in Hin as (l' & [= <- <-] & Hin).
  apply filter_In in Hin as [Hin Heq]. split; [done | by apply Z.eqb_eq].
Qed.

(** A secret no label refers to has no row in the join, so the search
    without patterns does not return it. *)
Lemma unlabelled_secret_not_returned d i :
  (forall l, In l (labels d) -> lsecret l <> i) ->
  reduce (map joinRow (joined d)) !! i = None.
Proof.
  intros Hno. rewrite reduce_lookup.
  destruct (rowsOf i (map joinRow (joined d))) as [|r rs] eqn:Hrs; [done|].
  assert (Hr : In r (rowsOf i (map joinRow (joined d)))) by (rewrite Hrs; by left).
  apply rowsOf_In in Hr as [Hr Hid].
  apply in_map_iff in Hr as ([s l] & <- & Hin).
  apply joined_In in Hin as [Hl Heq].
  exfalso. apply (Hno l Hl). by rewrite Heq.
Qed.

End Search.

(** C1, at the failing input: the store holds the secret [notes] with
    the label [work]; the search for the name [git*] and the labels
    [work], [home] returns [notes], whose name does not match [git*],
    because its label matches the first pattern.  With the single label
    pattern [work] the same search returns nothing. *)
Theorem SecretsByLabelsAndName_returns_on_label_alone (s : Store) :
  result (SecretsByLabelsAndName s "git*" ["work"; "home"]) notesDB
    = (Some {[ 1 := mkLabeled "notes" ["work"] ]}, None)
  /\ glob "git*" "notes" = false
  /\ result (SecretsByLabelsAndName s "git*" ["work"]) notesDB
     = (Some ∅, None).
Proof. destruct s as [h]. split; [|split]; by vm_compute. Qed.

(** C2, at the failing input: the store holds the secret [github] with
    the label [work] and the secret [lonely] without labels; the search
    without patterns returns [github] only. *)
Theorem SecretsByColumn_omits_unlabelled_secret (s : Store) :
  In (mkSecret 2 "lonely" "swordfish") (secrets lonelyDB)
  /\ result (SecretsByColumn s "label" []) lonelyDB
     = (Some {[ 1 := mkLabeled "github" ["work"] ]}, None)
  /\ forall m err,
       result (SecretsByColumn s "label" []) lonelyDB = (Some m, err) ->
       m !! 2 = None.
Proof.
  destruct s as [h]. split; [|split].
  - right. by left.
  - by vm_compute.
  - intros m err. rewrite SecretsByColumn_no_pattern. intros [= <- _].
    apply (unlabelled_secret_not_returned lonelyDB 2).
    intros l [<-|[]]. done.
Qed.

(** ** Worked examples *)

(** A store with the secrets A, B and C labelled [work], [personal]
    and [home]. *)
Example labels_are_ored :
  result (SecretsByColumn (New Conn) "label" ["work"; "personal"])
    {| master_key := None;
       secrets := [mkSecret 1 "A" "a"; mkSecret 2 "B" "b"; mkSecret 3 "C" "c"];
       labels := [mkLabel 1 "work" 1; mkLabel 2 "personal" 2;
                  mkLabel 3 "home" 3] |}
  = (Some (<[2 := mkLabeled "B" ["personal"]]>
             {[ 1 := mkLabeled "A" ["work"] ]}), None).
Proof. by vm_compute. Qed.

Example reduce_keeps_label_order :
  reduce [mkRow 1 "a" "L1"; mkRow 1 "a" "L2"; mkRow 2 "b" "L1"]
  = <[2 := mkLabeled "b" ["L1"]]> {[ 1 := mkLabeled "a" ["L1"; "L2"] ]}.
Proof. by vm_compute. Qed.

Example whereGlobOrClause_two_patterns :
  whereGlobOrClause "label" ["work"; "home"]
  = "WHERE label GLOB ? OR label GLOB ?".
Proof. reflexivity. Qed.

Example SecretsByIDs_three_ids :
  firstCall (SecretsByIDs (New Conn) [4; 5; 6])
  = Some (Conn, selectJoinLabelsIn +:+ "?,?,?)", [AInt 4; AInt 5; AInt 6])
  /\ tokenize "" (selectJoinLabelsIn +:+ "?,?,?)")
     = joinHeader false
       ++ [TWord "WHERE"; TWord "s.id"; TWord "IN"; TLParen;
           TParam; TComma; TParam; TComma; TParam; TRParen].
Proof. split; reflexivity. Qed.

Example glob_shell_style :
  glob "git*" "github" = true
  /\ glob "git*" "Github" = false
  /\ glob "g?t[a-z]ub" "github" = true
  /\ glob "[^a-f]*" "github" = true
  /\ glob "*" "" = true.
Proof. by vm_compute. Qed.

Example tokenize_marker_before_keyword :
  tokenize "" "label GLOB ?AND secret_name GLOB ?"
  = [TWord "label"; TWord "GLOB"; TParam;
     TWord "AND"; TWord "secret_name"; TWord "GLOB"; TParam].
Proof. reflexivity. Qed.

(** * Further properties *)

(** ** More on the row aggregator *)

Section ReduceMore.

Implicit Types (m : gmap Z LabeledSecret) (r : secretLabelRow).
Implicit Types (rows : list secretLabelRow) (i : Z).

Lemma rowsOf_app i rows1 rows2 :
  rowsOf i (rows1 ++ rows2) = rowsOf i rows1 ++ rowsOf i rows2.
Proof. unfold rowsOf. apply List.filter_app. Qed.

Lemma rowsOf_nonempty i rows :
  rowsOf i rows <> [] <-> exists r, In r rows /\ id r = i.
Proof.
  split.
  - destruct (rowsOf i rows) as [|r rs] eqn:Hrs; [done|]. intros _.
    exists r. apply rowsOf_In. rewrite Hrs. by left.
  - intros (r & Hin & Hid) Hnil.
    assert (In r (rowsOf i rows)) as Hr.
    { unfold rowsOf. apply filter_In. split; [done | by apply Z.eqb_eq]. }
    rewrite Hnil in Hr. destruct Hr.
Qed.

Lemma reduce_is_Some i rows :
  is_Some (reduce rows !! i) <-> exists r, In r rows /\ id r = i.
Proof.
  rewrite reduce_lookup, <- rowsOf_nonempty.
  destruct (rowsOf i rows); split; intros H; try done; by destruct H.
Qed.

Lemma size_reduce_step m r : (size (reduce_step m r) <= S (size m))%nat.
Proof.
  unfold reduce_step. rewrite map_size_insert.
  destruct (m !! id r); simpl; lia.
Qed.

Lemma size_fold_reduce_step rows m :
  (size (fold_left reduce_step rows m) <= size m + length rows)%nat.
Proof.
  revert m. induction rows as [|r rows IH]; intros m; simpl; [lia|].
  specialize (IH (reduce_step m r)). pose proof (size_reduce_step m r). lia.
Qed.

End ReduceMore.

(** X1: the ids of the mapping [reduce] builds are exactly the ids the
    rows carry, and the mapping has at most as many entries as there
    are rows. *)
Theorem reduce_keys_are_row_ids (rows : list secretLabelRow) :
  dom (reduce rows) = list_to_set (map id rows)
  /\ (size (reduce rows) <= length rows)%nat.
Proof.
  split.
  - apply set_eq. intros i.
    rewrite elem_of_dom, reduce_is_Some, elem_of_list_to_set, list_elem_of_In.
    rewrite in_map_iff. split; intros (r & H1 & H2); exists r; done.
  - unfold reduce. pose proof (size_fold_reduce_step rows ∅) as H.
    by rewrite map_size_empty in H.
Qed.

(** X2: aggregating two batches of rows one after the other: an id of
    both keeps the name of the first batch and the labels of the first
    followed by those of the second; an id of one batch keeps that
    batch's entry. *)
Theorem reduce_app (rows1 rows2 : list secretLabelRow) (i : Z) :
  reduce (rows1 ++ rows2) !! i =
    match reduce rows1 !! i, reduce rows2 !! i with
    | Some a, Some b => Some {| Name := Name a; Labels := Labels a ++ Labels b |}
    | Some a, None => Some a
    | None, b => b
    end.
Proof.
  rewrite !reduce_lookup, rowsOf_app.
  destruct (rowsOf i rows1) as [|a ra], (rowsOf i rows2) as [|b rb]; simpl;
    try done.
  - by rewrite app_nil_r.
  - by rewrite map_app.
Qed.

(** X3: [reduce] depends on the rows of each id in their own order
    only: two row sequences that agree on the rows of every id give
    the same mapping, however the ids are interleaved. *)
Theorem reduce_interleaving (rows1 rows2 : list secretLabelRow) :
  (forall i, rowsOf i rows1 = rowsOf i rows2) ->
  reduce rows1 = reduce rows2.
Proof.
  intros H. apply map_eq. intros i. by rewrite !reduce_lookup, H.
Qed.

Lemma reduce_interleaving_witness :
  reduce [mkRow 1 "a" "x"; mkRow 2 "b" "y"; mkRow 1 "a" "z"]
  = reduce [mkRow 2 "b" "y"; mkRow 1 "a" "x"; mkRow 1 "a" "z"].
Proof.
  apply reduce_interleaving. intros i. unfold rowsOf. cbn [List.filter id].
  destruct (Z.eqb_spec 1 i), (Z.eqb_spec 2 i); try reflexivity; lia.
Defined.

(** X4: no row is lost: the label of every row is among the labels of
    the entry of its id, and when all rows of that id carry the same
    name, that name is the entry's name. *)
Theorem reduce_keeps_every_row (rows : list secretLabelRow) (r : secretLabelRow) :
  In r rows ->
  exists v, reduce rows !! id r = Some v
            /\ In (label r) (Labels v)
            /\ ((forall r', In r' rows -> id r' = id r -> name r' = name r) ->
                Name v = name r).
Proof.
  intros Hin. rewrite reduce_lookup.
  assert (In r (rowsOf (id r) rows)) as Hr.
  { unfold rowsOf. apply filter_In. split; [done | apply Z.eqb_refl]. }
  destruct (rowsOf (id r) rows) as [|r0 rs] eqn:Hrs; [destruct Hr|].
  eexists. split; [reflexivity|]. split.
  - simpl. rewrite <- Hrs in Hr. apply (in_map label) in Hr. by rewrite Hrs in Hr.
  - intros Hname. simpl. 
    assert (In r0 (rowsOf (id r) rows)) as H0 by (rewrite Hrs; by left).
    apply rowsOf_In in H0 as [H0 H0id]. by apply Hname.
Qed.

Lemma reduce_keeps_every_row_witness :
  exists v, reduce [mkRow 1 "a" "x"; mkRow 1 "a" "y"] !! 1 = Some v
            /\ In "y" (Labels v)
            /\ ((forall r', In r' [mkRow 1 "a" "x"; mkRow 1 "a" "y"] ->
                            id r' = 1 -> name r' = "a") ->
                Name v = "a").
Proof.
  apply (reduce_keeps_every_row [mkRow 1 "a" "x"; mkRow 1 "a" "y"]
           (mkRow 1 "a" "y")).
  right. left. reflexivity.
Defined.

(** ** More on the scanning loop *)

Section ScanMore.

Lemma scanLoop_first_error pre err rest acc :
  scanLoop (map inl pre ++ inr err :: rest) acc = inr err.
Proof.
  revert acc. induction pre as [|r pre IH]; intros acc; simpl; [done|].
  apply IH.
Qed.

Lemma secretsJoinLabels_settled s q args r :
  settled (answerQuery (secretsJoinLabels s q args) r).
Proof.
  destruct r as [rows|err]; simpl.
  - destruct (scanLoop (fetched rows) []) as [rs|e].
    + destruct (iterErr rows) as [e|]; [right | left]; by eexists.
    + right. by eexists.
  - right. by eexists.
Qed.

End ScanMore.

(** X5: whatever the driver answers, each search ends after its one
    query with either a mapping and no error, or the nil mapping and
    an error. *)
Theorem search_returns_mapping_or_error
    (s : Store) (col name : string) (patterns : list string) (ids : list Z)
    (r : Rows + error) :
  settled (answerQuery (SecretsByColumn s col patterns) r)
  /\ settled (answerQuery (SecretsByIDs s ids) r)
  /\ settled (answerQuery (SecretsByLabelsAndName s name patterns) r).
Proof.
  split; [|split].
  - apply secretsJoinLabels_settled.
  - destruct ids; [right; by eexists | apply secretsJoinLabels_settled].
  - destruct patterns; [right; by eexists | apply secretsJoinLabels_settled].
Qed.

(** X6: when every row decodes and the iteration ends without error,
    each search returns the aggregate of all the rows, in the order
    delivered; a result without rows gives the empty mapping, not nil. *)
Theorem search_success_aggregates_all_rows
    (s : Store) (col name p : string) (ps : list string) (i : Z) (ids : list Z)
    (rs : list secretLabelRow) :
  let rows := {| fetched := map inl rs; iterErr := None |} in
  answerQuery (SecretsByColumn s col ps) (inl rows) = Ret (Some (reduce rs), None)
  /\ answerQuery (SecretsByIDs s (i :: ids)) (inl rows)
     = Ret (Some (reduce rs), None)
  /\ answerQuery (SecretsByLabelsAndName s name (p :: ps)) (inl rows)
     = Ret (Some (reduce rs), None)
  /\ answerQuery (SecretsByColumn s col ps)
       (inl {| fetched := []; iterErr := None |})
     = Ret (Some ∅, None).
Proof.
  intros rows. subst rows. repeat split; simpl;
    by rewrite ?scanLoop_all_decoded.
Qed.

(** X7: [secretsJoinLabels] returns the first error met, unchanged:
    the error of the query; else that of the first row that fails to
    decode, whatever follows it; else the error the iteration ends
    with. *)
Theorem secretsJoinLabels_first_error_wins
    (s : Store) (q : string) (args : list any) (err : error)
    (pre : list secretLabelRow) (rest : list (secretLabelRow + error))
    (later : option error) :
  answerQuery (secretsJoinLabels s q args) (inr err) = Ret (None, Some err)
  /\ answerQuery (secretsJoinLabels s q args)
       (inl {| fetched := map inl pre ++ inr err :: rest; iterErr := later |})
     = Ret (None, Some err)
  /\ answerQuery (secretsJoinLabels s q args)
       (inl {| fetched := map inl pre; iterErr := Some err |})
     = Ret (None, Some err).
Proof.
  split; [reflexivity|]. split; simpl.
  - by rewrite scanLoop_first_error.
  - by rewrite scanLoop_all_decoded.
Qed.

(** ** What a search selects, on any engine *)

Section Reading.

Lemma append_nil_r (a : string) : a +:+ "" = a.
Proof.
  induction a as [|x a IH]; [reflexivity|].
  change (String x (a +:+ "") = String x a). by rewrite IH.
Qed.

Lemma parseCond_label_clauses (n : nat) :
  parseCond true (concat (repeat (globToks ++ [TWord "OR"]) n) ++ globToks)
  = Some (repeat [AGlob CLabelName] (S n)).
Proof.
  unfold parseCond. rewrite splitOn_clauses.
  apply mapM_Some_2. cbn [repeat]. rewrite repeat_cons. apply Forall2_app.
  - induction n as [|n IH]; constructor; [reflexivity | exact IH].
  - constructor; [reflexivity | constructor].
Qed.

Lemma bindCond_label_clauses (ps : list string) :
  bindCond (repeat [AGlob CLabelName] (length ps)) (map AStr ps)
  = Some (map (fun p => [BGlob CLabelName (AStr p)]) ps, []).
Proof.
  induction ps as [|p ps IH]; [reflexivity|].
  change (bindCond
            ([AGlob CLabelName] :: repeat [AGlob CLabelName] (length ps))
            (AStr p :: map AStr ps)
          = Some ([BGlob CLabelName (AStr p)]
                    :: map (fun p => [BGlob CLabelName (AStr p)]) ps, [])).
  cbn [bindCond bindConj bindAtom mbind option_bind].
  rewrite IH. reflexivity.
Qed.

Lemma joined_iff d sc l :
  In (sc, l) (joined d)
  <-> In sc (secrets d) /\ In l (labels d) /\ lsecret l = sid sc.
Proof.
  unfold joined. rewrite in_flat_map. split.
  - intros (s' & Hs & Hin).
    apply in_map_iff in Hin as (l' & [= <- <-] & Hin).
    apply filter_In in Hin as [Hin Heq].
    split; [done|]. split; [done | by apply Z.eqb_eq].
  - intros (Hs & Hl & Heq). exists sc. split; [done|].
    apply in_map. apply filter_In. split; [done | by apply Z.eqb_eq].
Qed.

(** An entry of [reduce]: its name and each of its labels come from a
    row with its id. *)
Lemma reduce_entry rows i v :
  reduce rows !! i = Some v ->
  (exists r, In r rows /\ id r = i /\ name r = Name v)
  /\ (forall lb, In lb (Labels v)
                 <-> exists r, In r rows /\ id r = i /\ label r = lb).
Proof.
  rewrite reduce_lookup.
  destruct (rowsOf i rows) as [|r0 rs] eqn:Hrs; [done|]. intros [= <-].
  split.
  - exists r0. assert (In r0 (rowsOf i rows)) as H0 by (rewrite Hrs; by left).
    apply rowsOf_In in H0 as [H0 H0id]. done.
  - intros lb.
    change (In lb (map label (r0 :: rs))
            <-> (exists r, In r rows /\ id r = i /\ label r = lb)).
    rewrite <- Hrs, in_map_iff. split.
    + intros (r & <- & Hr). apply rowsOf_In in Hr as [Hr Hid]. by exists r.
    + intros (r & Hr & Hid & <-). exists r. split; [done|].
      unfold rowsOf. apply filter_In. split; [done | by apply Z.eqb_eq].
Qed.

Lemma reduce_has_row rows r :
  In r rows -> exists v, reduce rows !! id r = Some v /\ In (label r) (Labels v).
Proof.
  intros Hin.
  assert (is_Some (reduce rows !! id r)) as [v Hv].
  { apply reduce_is_Some. by exists r. }
  exists v. split; [done|].
  apply (reduce_entry _ _ _ Hv). by exists r.
Qed.

Lemma tokenize_in_header (x : string) :
  tokenize "" (selectJoinLabelsIn +:+ x)
  = joinHeader false
      ++ [TWord "WHERE"; TWord "s.id"; TWord "IN"; TLParen] ++ tokenize "" x.
Proof. reflexivity. Qed.

Lemma tokenize_markers (n : nat) :
  tokenize "" (Join (repeat "?" (S n)) "," +:+ ")") = inToks n.
Proof.
  induction n as [|n IH]; [reflexivity|].
  change (Join (repeat "?" (S (S n))) ",")
    with ("?" +:+ "," +:+ Join (repeat "?" (S n)) ",").
  rewrite !append_assoc.
  change (tokenize "" ("?" +:+ "," +:+ ?x))
    with (TParam :: TComma :: tokenize "" x).
  rewrite IH. reflexivity.
Qed.

Lemma splitOn_inToks kw n : splitOn kw (inToks n) = [inToks n].
Proof.
  induction n as [|n IH]; [reflexivity|].
  change (inToks (S n)) with (TParam :: TComma :: inToks n).
  cbn [splitOn]. rewrite IH. reflexivity.
Qed.

Lemma inList_inToks n : inList (inToks n) = Some (S n).
Proof.
  induction n as [|n IH]; [reflexivity|].
  change (inToks (S n)) with (TParam :: TComma :: inToks n).
  cbn [inList]. rewrite IH. reflexivity.
Qed.

Lemma parseCond_in n :
  parseCond false (TWord "s.id" :: TWord "IN" :: TLParen :: inToks n)
  = Some [[AIn CSecretId (S n)]].
Proof.
  unfold parseCond.
  assert (forall kw, token_eqb (TWord "s.id") (TWord kw) = false
                     -> token_eqb (TWord "IN") (TWord kw) = false
                     -> splitOn kw (TWord "s.id" :: TWord "IN" :: TLParen :: inToks n)
                        = [TWord "s.id" :: TWord "IN" :: TLParen :: inToks n])
    as Hsplit.
  { intros kw H1 H2. cbn [splitOn]. rewrite splitOn_inToks.
    rewrite H1, H2. reflexivity. }
  rewrite Hsplit by reflexivity. cbn [mapM].
  rewrite Hsplit by reflexivity. cbn [mapM parseAtom].
  change (String.eqb "IN" "IN") with true. cbn iota.
  rewrite inList_inToks. reflexivity.
Qed.

Lemma tokenize_name_glob (x : string) :
  tokenize "" ("secret_name GLOB ?" +:+ x) = nameToks ++ tokenize "" x.
Proof. reflexivity. Qed.

Lemma tokenize_name_clauses (n : nat) (tail : string) :
  tokenize "" (Join (repeat ("secret_name" +:+ " GLOB ?") (S n)) " OR " +:+ tail)
  = concat (repeat (nameToks ++ [TWord "OR"]) n) ++ nameToks
      ++ tokenize "" tail.
Proof.
  induction n as [|n IH].
  - reflexivity.
  - change (Join (repeat ("secret_name" +:+ " GLOB ?") (S (S n))) " OR ")
      with ("secret_name GLOB ?" +:+ " OR "
              +:+ Join (repeat ("secret_name" +:+ " GLOB ?") (S n)) " OR ").
    rewrite !append_assoc, tokenize_name_glob, tokenize_or, IH. reflexivity.
Qed.

Lemma splitOn_name_or (rest : list token) :
  splitOn "OR" (nameToks ++ [TWord "OR"] ++ rest)
  = nameToks :: splitOn "OR" rest.
Proof.
  pose proof (splitOn_nonempty "OR" rest) as Hne.
  simpl. destruct (splitOn "OR" rest); done.
Qed.

Lemma splitOn_name_clauses (n : nat) (final : list token) :
  splitOn "OR" (concat (repeat (nameToks ++ [TWord "OR"]) n) ++ final)
  = repeat nameToks n ++ splitOn "OR" final.
Proof.
  induction n as [|n IH]; [done|].
  cbn [repeat concat]. rewrite <- !app_assoc.
  rewrite (splitOn_name_or _), IH. reflexivity.
Qed.

Lemma parseCond_name_clauses (n : nat) :
  parseCond true (concat (repeat (nameToks ++ [TWord "OR"]) n) ++ nameToks)
  = Some (repeat [AGlob CSecretName] (S n)).
Proof.
  unfold parseCond. rewrite splitOn_name_clauses.
  apply mapM_Some_2. cbn [repeat]. rewrite repeat_cons. apply Forall2_app.
  - induction n as [|n IH]; constructor; [reflexivity | exact IH].
  - constructor; [reflexivity | constructor].
Qed.

Lemma bindCond_name_clauses (ps : list string) :
  bindCond (repeat [AGlob CSecretName] (length ps)) (map AStr ps)
  = Some (map (fun p => [BGlob CSecretName (AStr p)]) ps, []).
Proof.
  induction ps as [|p ps IH]; [reflexivity|].
  change (bindCond
            ([AGlob CSecretName] :: repeat [AGlob CSecretName] (length ps))
            (AStr p :: map AStr ps)
          = Some ([BGlob CSecretName (AStr p)]
                    :: map (fun p => [BGlob CSecretName (AStr p)]) ps, [])).
  cbn [bindCond bindConj bindAtom mbind option_bind].
  rewrite IH. reflexivity.
Qed.

End Reading.

Section AnyEngine.

Variable env : engineEnv.
Hypothesis Hplan : planPermutes env.

(** A search that returns a mapping has met no failure: the mapping is
    the aggregate of the rows its query selects, in the plan's order. *)
Lemma searchIn_mapping s q args d m :
  searchIn env (secretsJoinLabels s q args) d = Ret (Some m, None) ->
  exists rows,
    selectIn (globOf env) d q args = inl rows
    /\ m = reduce (map joinRow (planOf env q rows)).
Proof.
  unfold searchIn, secretsJoinLabels, engineQueryIn.
  destruct (faultOf env q args) as [[err|[n err]]|];
    destruct (selectIn (globOf env) d q args) as [rows|err'];
    cbn [fetched iterErr]; try discriminate.
  - rewrite firstn_map, scanLoop_all_decoded. discriminate.
  - rewrite scanLoop_all_decoded. intros [= <-]. by exists rows.
Qed.

(** The rows delivered, seen from the tables. *)
Lemma delivered_In d q keep r :
  In r (map joinRow
          (planOf env q
             (List.filter (fun sl => keep (fst sl) (snd sl)) (joined d))))
  <-> exists sc l,
        In sc (secrets d) /\ In l (labels d) /\ lsecret l = sid sc
        /\ keep sc l = true /\ r = joinRow (sc, l).
Proof.
  rewrite in_map_iff. split.
  - intros ([sc l] & <- & Hin).
    apply (Permutation_in _ (Hplan q _)) in Hin.
    apply filter_In in Hin as [Hin Hkeep].
    apply joined_iff in Hin as (Hs & Hl & Heq). by exists sc, l.
  - intros (sc & l & Hs & Hl & Heq & Hkeep & ->). exists (sc, l).
    split; [done|].
    apply (Permutation_in _ (Permutation_sym (Hplan q _))).
    apply filter_In. split; [by apply joined_iff | done].
Qed.

End AnyEngine.

Section Selecting.

Variable g : string -> string -> bool.

Lemma textGlob_clauses (c : column) (ps : list string) :
  textGlob (BGlob c (AStr "")) = true ->
  forallb (forallb textGlob) (map (fun p => [BGlob c (AStr p)]) ps) = true.
Proof.
  intros Hc. induction ps as [|p ps IH]; [reflexivity|].
  cbn [map forallb]. rewrite IH. by destruct c.
Qed.

Lemma evalCondIn_clauses (c : column) (ps : list string) sc l :
  evalCondIn g (map (fun p => [BGlob c (AStr p)]) ps) sc l
  = match columnValue c sc l with
    | AStr text => anyMatch g ps text
    | AInt _ => false
    end.
Proof.
  unfold evalCondIn, anyMatch. induction ps as [|p ps IH].
  - by destruct (columnValue c sc l).
  - cbn [map existsb forallb evalBoundIn]. rewrite IH.
    destruct (columnValue c sc l); by rewrite ?andb_true_r.
Qed.

Lemma selectIn_no_pattern d col :
  selectIn g d (selectJoinLabels +:+ whereGlobOrClause col []) []
  = inl (joined d).
Proof. reflexivity. Qed.

Lemma selectIn_labels d (p : string) (ps : list string) :
  selectIn g d (selectJoinLabels +:+ whereGlobOrClause "label" (p :: ps))
    (ToAnySlice AStr (p :: ps))
  = inl (List.filter (fun sl => anyMatch g (p :: ps) (lname (snd sl)))
                     (joined d)).
Proof.
  unfold selectIn.
  rewrite whereGlobOrClause_length. cbn [length].
  rewrite tokenize_header, tokenize_where.
  rewrite <- (append_nil_r (Join _ _)), tokenize_clauses.
  change (tokenize "" "") with (@nil token). rewrite app_nil_r.
  change (stripPrefix (joinHeader true) (joinHeader true ++ ?r)) with (Some r).
  cbn [selectWhere token_eqb].
  rewrite parseCond_label_clauses. unfold ToAnySlice.
  pose proof (bindCond_label_clauses (p :: ps)) as Hbind.
  cbn [length] in Hbind. rewrite Hbind.
  rewrite textGlob_clauses by reflexivity. f_equal.
  apply filter_ext. intros [sc l]. apply (evalCondIn_clauses CLabelName).
Qed.

Lemma selectIn_names d (p : string) (ps : list string) :
  selectIn g d (selectJoinLabels +:+ whereGlobOrClause "secret_name" (p :: ps))
    (ToAnySlice AStr (p :: ps))
  = inl (List.filter (fun sl => anyMatch g (p :: ps) (sname (fst sl)))
                     (joined d)).
Proof.
  unfold selectIn.
  rewrite whereGlobOrClause_length. cbn [length].
  rewrite tokenize_header, tokenize_where.
  rewrite <- (append_nil_r (Join _ _)), tokenize_name_clauses.
  change (tokenize "" "") with (@nil token). rewrite app_nil_r.
  change (stripPrefix (joinHeader true) (joinHeader true ++ ?r)) with (Some r).
  cbn [selectWhere token_eqb].
  rewrite parseCond_name_clauses. unfold ToAnySlice.
  pose proof (bindCond_name_clauses (p :: ps)) as Hbind.
  cbn [length] in Hbind. rewrite Hbind.
  rewrite textGlob_clauses by reflexivity. f_equal.
  apply filter_ext. intros [sc l]. apply (evalCondIn_clauses CSecretName).
Qed.

Lemma evalCondIn_labels_and_name (ls : list string) (l name : string) sc lb :
  evalCondIn g
    (map (fun p => [BGlob CLabelName (AStr p)]) ls
       ++ [[BGlob CLabelName (AStr l); BGlob CSecretName (AStr name)]])
    sc lb
  = (anyMatch g ls (lname lb) || (g l (lname lb) && g name (sname sc)))%bool.
Proof.
  unfold evalCondIn, anyMatch. rewrite existsb_app. f_equal.
  - induction ls as [|p ls IH]; [reflexivity|].
    cbn [map existsb forallb evalBoundIn columnValue]. rewrite IH.
    by rewrite andb_true_r.
  - cbn [existsb forallb evalBoundIn columnValue].
    by rewrite orb_false_r, andb_true_r.
Qed.

Lemma selectIn_labels_and_name d (ls : list string) (l name : string) :
  selectIn g d
    (selectJoinLabels +:+ whereGlobOrClause "label" (ls ++ [l])
       +:+ "AND secret_name GLOB ?")
    (ToAnySlice AStr (ls ++ [l]) ++ [AStr name])
  = inl (List.filter
           (fun sl => (anyMatch g ls (lname (snd sl))
                       || (g l (lname (snd sl)) && g name (sname (fst sl))))%bool)
           (joined d)).
Proof.
  unfold selectIn.
  rewrite whereGlobOrClause_length, length_app, Nat.add_1_r.
  rewrite tokenize_header, append_assoc, tokenize_where, tokenize_clauses.
  change (tokenize "" "AND secret_name GLOB ?")
    with [TWord "AND"; TWord "secret_name"; TWord "GLOB"; TParam].
  change (stripPrefix (joinHeader true) (joinHeader true ++ ?r)) with (Some r).
  cbn [selectWhere token_eqb].
  rewrite parseCond_clauses. unfold ToAnySlice. rewrite bindCond_clauses.
  rewrite forallb_app, textGlob_clauses by reflexivity.
  cbn [forallb textGlob andb]. f_equal.
  apply filter_ext. intros [sc lb]. apply evalCondIn_labels_and_name.
Qed.

Lemma evalCondIn_ids (ids : list Z) sc l :
  evalCondIn g [[BIn CSecretId (map AInt ids)]] sc l = inIds ids (sid sc).
Proof.
  unfold evalCondIn, inIds. cbn [existsb forallb evalBoundIn columnValue].
  rewrite orb_false_r, andb_true_r.
  induction ids as [|j ids IH]; [reflexivity|].
  cbn [map existsb any_eqb]. by rewrite IH.
Qed.

Lemma selectIn_ids d (j : Z) (js : list Z) :
  selectIn g d
    (selectJoinLabelsIn
       +:+ Join (map (fun _ : Z => "?") (j :: js)) "," +:+ ")")
    (ToAnySlice AInt (j :: js))
  = inl (List.filter (fun sl => inIds (j :: js) (sid (fst sl))) (joined d)).
Proof.
  unfold selectIn.
  rewrite map_const_repeat. cbn [length].
  rewrite tokenize_in_header, tokenize_markers.
  change (stripPrefix (joinHeader true) (joinHeader false ++ ?r))
    with (@None (list token)).
  change (stripPrefix (joinHeader false) (joinHeader false ++ ?r)) with (Some r).
  cbn [app selectWhere token_eqb].
  change (String.eqb "WHERE" "WHERE") with true. cbn iota.
  rewrite parseCond_in. unfold ToAnySlice.
  cbn [bindCond bindConj bindAtom mbind option_bind].
  rewrite length_map. cbn [length]. rewrite Nat.leb_refl.
  rewrite <- (length_map AInt js).
  change (S (length (map AInt js))) with (length (map AInt (j :: js))).
  rewrite firstn_all, skipn_all. cbn [forallb textGlob andb]. f_equal.
  apply filter_ext. intros [sc l]. apply evalCondIn_ids.
Qed.

End Selecting.

(** X8: whenever [SecretsByColumn] with the column [label] and at
    least one pattern returns a mapping, on any engine, whatever its
    GLOB matching and the order of its rows: every label returned
    matches one of the patterns and is a label of the secret it is
    listed under, and every label of a secret that matches one of the
    patterns is returned under that secret. *)
Theorem label_search_is_or
    (env : engineEnv) (s : Store) (d : DB) (p : string) (ps : list string)
    (m : gmap Z LabeledSecret) :
  planPermutes env ->
  searchIn env (SecretsByColumn s "label" (p :: ps)) d = Ret (Some m, None) ->
  (forall i v lb,
      m !! i = Some v -> In lb (Labels v) ->
      anyMatch (globOf env) (p :: ps) lb = true
      /\ exists sc l, In sc (secrets d) /\ In l (labels d)
                      /\ lsecret l = sid sc /\ sid sc = i /\ lname l = lb)
  /\ (forall sc l,
        In sc (secrets d) -> In l (labels d) -> lsecret l = sid sc ->
        anyMatch (globOf env) (p :: ps) (lname l) = true ->
        exists v, m !! sid sc = Some v /\ In (lname l) (Labels v)).
Proof.
  intros Hplan Hm. apply searchIn_mapping in Hm as (rows & Hsel & ->).
  rewrite selectIn_labels in Hsel. injection Hsel as <-.
  set (keep := fun (_ : secretRec) (l : labelRec) =>
                 anyMatch (globOf env) (p :: ps) (lname l)).
  split.
  - intros i v lb Hv Hlb.
    apply (reduce_entry _ _ _ Hv) in Hlb as (r & Hr & Hid & <-).
    apply (delivered_In env Hplan d _ keep) in Hr
      as (sc & l & Hs & Hl & Heq & Hkeep & ->).
    split; [done|]. by exists sc, l.
  - intros sc l Hs Hl Heq Hkeep.
    apply (reduce_has_row _ (joinRow (sc, l))).
    apply (delivered_In env Hplan d _ keep). by exists sc, l.
Qed.

Lemma reversingEnv_permutes : planPermutes reversingEnv.
Proof. intros q rows. symmetry. apply Permutation_rev. Qed.

Lemma label_search_is_or_witness :
  exists v,
    reduce [mkRow 3 "notes" "work"; mkRow 1 "github" "dev";
            mkRow 1 "github" "work"] !! 1 = Some v
    /\ In "work" (Labels v).
Proof.
  refine (proj2 (label_search_is_or reversingEnv (New Conn) teamDB
                   "w*" ["d?v"] _ reversingEnv_permutes _)
                (mkSecret 1 "github" "a") (mkLabel 1 "work" 1) _ _ _ _).
  - by vm_compute.
  - by left.
  - by left.
  - reflexivity.
  - reflexivity.
Defined.

(** X9: whenever [SecretsByColumn] with the column [secret_name] and
    at least one pattern returns a mapping, on any engine: every entry
    carries the name of the secret with that id, and the name matches
    one of the patterns; every labelled secret whose name matches one
    of the patterns is returned with each of its labels. *)
Theorem name_search_is_or
    (env : engineEnv) (s : Store) (d : DB) (p : string) (ps : list string)
    (m : gmap Z LabeledSecret) :
  planPermutes env ->
  searchIn env (SecretsByColumn s "secret_name" (p :: ps)) d
    = Ret (Some m, None) ->
  (forall i v,
      m !! i = Some v ->
      anyMatch (globOf env) (p :: ps) (Name v) = true
      /\ exists sc, In sc (secrets d) /\ sid sc = i /\ sname sc = Name v)
  /\ (forall sc l,
        In sc (secrets d) -> In l (labels d) -> lsecret l = sid sc ->
        anyMatch (globOf env) (p :: ps) (sname sc) = true ->
        exists v, m !! sid sc = Some v /\ In (lname l) (Labels v)).
Proof.
  intros Hplan Hm. apply searchIn_mapping in Hm as (rows & Hsel & ->).
  rewrite selectIn_names in Hsel. injection Hsel as <-.
  set (keep := fun (sc : secretRec) (_ : labelRec) =>
                 anyMatch (globOf env) (p :: ps) (sname sc)).
  split.
  - intros i v Hv. destruct (reduce_entry _ _ _ Hv) as [(r & Hr & Hid & Hn) _].
    apply (delivered_In env Hplan d _ keep) in Hr
      as (sc & l & Hs & Hl & Heq & Hkeep & ->).
    rewrite <- Hn. split; [done|]. by exists sc.
  - intros sc l Hs Hl Heq Hkeep.
    apply (reduce_has_row _ (joinRow (sc, l))).
    apply (delivered_In env Hplan d _ keep). by exists sc, l.
Qed.

Lemma name_search_is_or_witness :
  exists v,
    reduce [mkRow 2 "gitlab" "home"; mkRow 1 "github" "dev";
            mkRow 1 "github" "work"] !! 1 = Some v
    /\ In "dev" (Labels v).
Proof.
  refine (proj2 (name_search_is_or reversingEnv (New Conn) teamDB
                   "git*" [] _ reversingEnv_permutes _)
                (mkSecret 1 "github" "a") (mkLabel 2 "dev" 1) _ _ _ _).
  - by vm_compute.
  - by left.
  - right. by left.
  - reflexivity.
  - reflexivity.
Defined.

(** X11: whenever [SecretsByIDs] returns a mapping, on any engine: a
    label is listed under an id exactly when the id is one of those
    asked for and the label is a label of that secret; and when the
    listing without patterns returns a mapping too, exactly when the
    id is one of those asked for and the listing has the label under
    that id.  The order of the labels is the engine's and is not
    compared. *)
Theorem id_search_restricts_listing
    (env : engineEnv) (s : Store) (d : DB) (col : string) (j : Z) (js : list Z)
    (m everything : gmap Z LabeledSecret) :
  planPermutes env ->
  searchIn env (SecretsByIDs s (j :: js)) d = Ret (Some m, None) ->
  (forall i lb,
      (exists v, m !! i = Some v /\ In lb (Labels v))
      <-> inIds (j :: js) i = true
          /\ exists sc l, In sc (secrets d) /\ In l (labels d)
                          /\ lsecret l = sid sc /\ sid sc = i /\ lname l = lb)
  /\ (searchIn env (SecretsByColumn s col []) d = Ret (Some everything, None) ->
      forall i lb,
        (exists v, m !! i = Some v /\ In lb (Labels v))
        <-> inIds (j :: js) i = true
            /\ exists v', everything !! i = Some v' /\ In lb (Labels v')).
Proof.
  intros Hplan Hm. apply searchIn_mapping in Hm as (rows & Hsel & ->).
  unfold ToAnySlice in Hsel. 
  pose proof (selectIn_ids (globOf env) d j js) as Hids.
  unfold ToAnySlice in Hids. rewrite Hids in Hsel. injection Hsel as <-.
  set (keep := fun (sc : secretRec) (_ : labelRec) => inIds (j :: js) (sid sc)).
  assert (forall i lb,
      (exists v, reduce (map joinRow (planOf env
                   (selectJoinLabelsIn
                      +:+ Join (map (fun _ : Z => "?") (j :: js)) "," +:+ ")")
                   (List.filter (fun sl => keep (fst sl) (snd sl)) (joined d))))
                 !! i = Some v /\ In lb (Labels v))
      <-> inIds (j :: js) i = true
          /\ exists sc l, In sc (secrets d) /\ In l (labels d)
                          /\ lsecret l = sid sc /\ sid sc = i /\ lname l = lb)
    as Hmine.
  { intros i lb. split.
    - intros (v & Hv & Hlb).
      apply (reduce_entry _ _ _ Hv) in Hlb as (r & Hr & Hid & <-).
      apply (delivered_In env Hplan d _ keep) in Hr
        as (sc & l & Hs & Hl & Heq & Hkeep & ->).
      cbn in Hid. subst i. split; [done|]. by exists sc, l.
    - intros (Hin & sc & l & Hs & Hl & Heq & <- & <-).
      apply (reduce_has_row _ (joinRow (sc, l))).
      apply (delivered_In env Hplan d _ keep). by exists sc, l. }
  split; [exact Hmine|].
  intros Hall. apply searchIn_mapping in Hall as (rows & Hsel & ->).
  unfold ToAnySlice in Hsel. cbn [map] in Hsel.
  rewrite selectIn_no_pattern in Hsel. injection Hsel as <-.
  intros i lb. etrans; [apply Hmine|]. apply and_iff_compat_l. split.
  - intros (sc & l & Hs & Hl & Heq & <- & <-).
    apply (reduce_has_row _ (joinRow (sc, l))).
    rewrite <- (filter_all (joined d)).
    apply (delivered_In env Hplan d _ (fun _ _ => true)). by exists sc, l.
  - intros (v' & Hv' & Hlb).
    apply (reduce_entry _ _ _ Hv') in Hlb as (r & Hr & Hid & <-).
    rewrite <- (filter_all (joined d)) in Hr.
    apply (delivered_In env Hplan d _ (fun _ _ => true)) in Hr
      as (sc & l & Hs & Hl & Heq & _ & ->).
    by exists sc, l.
Qed.

Lemma id_search_restricts_listing_witness :
  (exists v,
     reduce [mkRow 3 "notes" "work"; mkRow 1 "github" "dev";
             mkRow 1 "github" "work"] !! 1 = Some v
     /\ In "dev" (Labels v))
  <-> inIds [1; 3; 4] 1 = true
      /\ exists v',
           reduce [mkRow 3 "notes" "work"; mkRow 2 "gitlab" "home";
                   mkRow 1 "github" "dev"; mkRow 1 "github" "work"] !! 1
           = Some v'
           /\ In "dev" (Labels v').
Proof.
  refine (proj2 (id_search_restricts_listing reversingEnv (New Conn) teamDB
                   "label" 1 [3; 4] _ _ reversingEnv_permutes _) _ 1 "dev").
  - by vm_compute.
  - by vm_compute.
Defined.

Section LabelsAndName.

Variable env : engineEnv.
Hypothesis Hplan : planPermutes env.

(** What the search by labels and name returns, for the label patterns
    [ls] followed by [l]. *)
Lemma labels_and_name_mapping s d (ls : list string) (l name : string) m :
  searchIn env (SecretsByLabelsAndName s name (ls ++ [l])) d
    = Ret (Some m, None) ->
  forall i lb,
    (exists v, m !! i = Some v /\ In lb (Labels v))
    <-> exists sc lr,
          In sc (secrets d) /\ In lr (labels d) /\ lsecret lr = sid sc
          /\ sid sc = i /\ lname lr = lb
          /\ (anyMatch (globOf env) ls lb = true
              \/ (globOf env l lb = true
                  /\ globOf env name (sname sc) = true)).
Proof.
  unfold SecretsByLabelsAndName.
  destruct (ls ++ [l]) as [|x xs] eqn:Hls; [by destruct ls|]. rewrite <- Hls.
  intros Hm. apply searchIn_mapping in Hm as (rows & Hsel & ->).
  rewrite selectIn_labels_and_name in Hsel. injection Hsel as <-.
  set (keep := fun (sc : secretRec) (lr : labelRec) =>
                 (anyMatch (globOf env) ls (lname lr)
                  || (globOf env l (lname lr)
                      && globOf env name (sname sc)))%bool).
  intros i lb. split.
  - intros (v & Hv & Hlb).
    apply (reduce_entry _ _ _ Hv) in Hlb as (r & Hr & Hid & <-).
    apply (delivered_In env Hplan d _ keep) in Hr
      as (sc & lr & Hs & Hl & Heq & Hkeep & ->).
    exists sc, lr. repeat (split; [done|]). unfold keep in Hkeep.
    apply orb_prop in Hkeep as [?|Hk]; [by left | right].
    by apply andb_prop in Hk.
  - intros (sc & lr & Hs & Hl & Heq & <- & <- & Hkeep).
    apply (reduce_has_row _ (joinRow (sc, lr))).
    apply (delivered_In env Hplan d _ keep). exists sc, lr.
    repeat (split; [done|]). split; [|done]. unfold keep.
    destruct Hkeep as [->|[-> ->]]; [done | by rewrite orb_true_r].
Qed.

(** The name of an entry is the name of a secret with a row selected. *)
Lemma labels_and_name_entry s d (ls : list string) (l name : string) m i v :
  searchIn env (SecretsByLabelsAndName s name (ls ++ [l])) d
    = Ret (Some m, None) ->
  m !! i = Some v ->
  exists sc lr,
    In sc (secrets d) /\ In lr (labels d) /\ lsecret lr = sid sc
    /\ sid sc = i /\ sname sc = Name v
    /\ (anyMatch (globOf env) ls (lname lr) = true
        \/ (globOf env l (lname lr) = true
            /\ globOf env name (sname sc) = true)).
Proof.
  unfold SecretsByLabelsAndName.
  destruct (ls ++ [l]) as [|x xs] eqn:Hls; [by destruct ls|]. rewrite <- Hls.
  intros Hm Hv. apply searchIn_mapping in Hm as (rows & Hsel & ->).
  rewrite selectIn_labels_and_name in Hsel. injection Hsel as <-.
  set (keep := fun (sc : secretRec) (lr : labelRec) =>
                 (anyMatch (globOf env) ls (lname lr)
                  || (globOf env l (lname lr)
                      && globOf env name (sname sc)))%bool).
  destruct (reduce_entry _ _ _ Hv) as [(r & Hr & Hid & Hn) _].
  apply (delivered_In env Hplan d _ keep) in Hr
    as (sc & lr & Hs & Hl & Heq & Hkeep & ->).
  exists sc, lr. repeat (split; [done|]). unfold keep in Hkeep.
  apply orb_prop in Hkeep as [?|Hk]; [by left | right].
  by apply andb_prop in Hk.
Qed.

End LabelsAndName.

(** X12: whenever [SecretsByLabelsAndName] with exactly one label
    pattern returns a mapping, on any engine: every entry has a name
    matching the name pattern and only labels matching the label
    pattern, and every label of a secret is returned under it when the
    label matches the label pattern and the secret's name the name
    pattern. *)
Theorem one_label_and_name_is_and
    (env : engineEnv) (s : Store) (d : DB) (name l1 : string)
    (m : gmap Z LabeledSecret) :
  planPermutes env ->
  searchIn env (SecretsByLabelsAndName s name [l1]) d = Ret (Some m, None) ->
  (forall i v,
      m !! i = Some v ->
      globOf env name (Name v) = true
      /\ forall lb, In lb (Labels v) -> globOf env l1 lb = true)
  /\ (forall sc l,
        In sc (secrets d) -> In l (labels d) -> lsecret l = sid sc ->
        globOf env l1 (lname l) = true ->
        globOf env name (sname sc) = true ->
        exists v, m !! sid sc = Some v /\ In (lname l) (Labels v)).
Proof.
  intros Hplan Hm. split.
  - intros i v Hv. split.
    + destruct (labels_and_name_entry env Hplan s d [] l1 name m i v Hm Hv)
        as (sc & lr & _ & _ & _ & _ & <- & [Hk|[_ Hk]]); [discriminate|done].
    + intros lb Hlb.
      assert (exists v, m !! i = Some v /\ In lb (Labels v)) as Hex by eauto.
      apply (labels_and_name_mapping env Hplan s d [] l1 name m Hm) in Hex
        as (sc & lr & _ & _ & _ & _ & _ & [Hk|[Hk _]]); [discriminate|done].
  - intros sc l Hs Hl Heq H1 Hn.
    apply (labels_and_name_mapping env Hplan s d [] l1 name m Hm).
    exists sc, l. repeat (split; [done|]). by right.
Qed.

Lemma one_label_and_name_is_and_witness :
  exists v,
    reduce [mkRow 1 "github" "work"] !! 1 = Some v /\ In "work" (Labels v).
Proof.
  refine (proj2 (one_label_and_name_is_and reversingEnv (New Conn) teamDB
                   "git*" "work" _ reversingEnv_permutes _)
                (mkSecret 1 "github" "a") (mkLabel 1 "work" 1) _ _ _ _ _).
  - by vm_compute.
  - by left.
  - by left.
  - reflexivity.
  - reflexivity.
  - reflexivity.
Defined.

(** X13: whenever [SecretsByLabelsAndName] and [SecretsByColumn] with
    the column [label] both return a mapping for the same label
    patterns, on any engine: every id of the first is an id of the
    second, every label the first lists under it is listed by the
    second too, and matches one of the label patterns. *)
Theorem labels_and_name_within_label_search
    (env : engineEnv) (s : Store) (d : DB) (name p : string) (ps : list string)
    (m byLabel : gmap Z LabeledSecret) :
  planPermutes env ->
  searchIn env (SecretsByLabelsAndName s name (p :: ps)) d
    = Ret (Some m, None) ->
  searchIn env (SecretsByColumn s "label" (p :: ps)) d
    = Ret (Some byLabel, None) ->
  forall i v,
    m !! i = Some v ->
    exists v', byLabel !! i = Some v'
               /\ forall lb, In lb (Labels v) ->
                             In lb (Labels v')
                             /\ anyMatch (globOf env) (p :: ps) lb = true.
Proof.
  intros Hplan Hm Hby i v Hv.
  destruct (exists_last (l := p :: ps)) as (ls & l & Hlast); [done|].
  rewrite Hlast in Hm.
  pose proof (labels_and_name_mapping env Hplan s d ls l name m Hm) as Hchar.
  destruct (label_search_is_or env s d p ps byLabel Hplan Hby) as [_ Hcomplete].
  assert (forall lb, In lb (Labels v) ->
            exists sc lr, In sc (secrets d) /\ In lr (labels d)
                          /\ lsecret lr = sid sc /\ sid sc = i /\ lname lr = lb
                          /\ anyMatch (globOf env) (p :: ps) lb = true) as Hrows.
  { intros lb Hlb.
    assert (exists v, m !! i = Some v /\ In lb (Labels v)) as Hex by eauto.
    apply Hchar in Hex as (sc & lr & Hs & Hl & Heq & Hi & Hn & Hk).
    exists sc, lr. repeat (split; [done|]).
    rewrite Hlast. unfold anyMatch in *. rewrite existsb_app.
    destruct Hk as [->|[Hk _]]; [done|].
    cbn [existsb]. rewrite Hk. by rewrite orb_true_r. }
  destruct (labels_and_name_entry env Hplan s d ls l name m i v Hm Hv)
    as (sc0 & lr0 & Hs0 & Hl0 & Heq0 & Hi0 & _ & Hk0).
  assert (anyMatch (globOf env) (p :: ps) (lname lr0) = true) as Hany0.
  { rewrite Hlast. unfold anyMatch in *. rewrite existsb_app.
    destruct Hk0 as [->|[Hk _]]; [done|].
    cbn [existsb]. rewrite Hk. by rewrite orb_true_r. }
  destruct (Hcomplete sc0 lr0 Hs0 Hl0 Heq0 Hany0) as (v' & Hv' & _).
  rewrite Hi0 in Hv'. exists v'. split; [done|].
  intros lb Hlb. destruct (Hrows lb Hlb) as (sc & lr & Hs & Hl & Heq & Hi & Hn & Hany).
  split; [|done].
  rewrite <- Hn in Hany.
  destruct (Hcomplete sc lr Hs Hl Heq Hany) as (v2 & Hv2 & Hin2).
  rewrite Hi, Hv' in Hv2. injection Hv2 as <-. by rewrite <- Hn.
Qed.

Lemma labels_and_name_within_label_search_witness :
  exists v',
    reduce [mkRow 3 "notes" "work"; mkRow 2 "gitlab" "home";
            mkRow 1 "github" "work"] !! 3 = Some v'
    /\ forall lb,
         In lb (Labels (mkLabeled "notes" ["work"])) ->
         In lb (Labels v')
         /\ anyMatch (globOf reversingEnv) ["work"; "home"] lb = true.
Proof.
  refine (labels_and_name_within_label_search reversingEnv (New Conn) teamDB
            "git*" "work" ["home"] _ _ reversingEnv_permutes _ _
            3 (mkLabeled "notes" ["work"]) _).
  - by vm_compute.
  - by vm_compute.
  - by vm_compute.
Defined.

(** X14: whenever [SecretsByLabelsAndName] returns a mapping, on any
    engine: a label is listed under a secret exactly when it is a label
    of that secret and either matches one of the label patterns but the
    last, or matches the last one while the secret's name matches the
    name pattern. *)
Theorem labels_and_name_selected_rows
    (env : engineEnv) (s : Store) (d : DB) (name l : string) (ls : list string)
    (m : gmap Z LabeledSecret) :
  planPermutes env ->
  searchIn env (SecretsByLabelsAndName s name (ls ++ [l])) d
    = Ret (Some m, None) ->
  forall (i : Z) (lb : string),
    (exists v, m !! i = Some v /\ In lb (Labels v))
    <-> exists sc lr,
          In sc (secrets d) /\ In lr (labels d) /\ lsecret lr = sid sc
          /\ sid sc = i /\ lname lr = lb
          /\ (anyMatch (globOf env) ls lb = true
              \/ (globOf env l lb = true
                  /\ globOf env name (sname sc) = true)).
Proof.
  intros Hplan Hm.
  exact (labels_and_name_mapping env Hplan s d ls l name m Hm).
Qed.

Lemma labels_and_name_selected_rows_witness :
  exists v,
    reduce [mkRow 3 "notes" "work"; mkRow 2 "gitlab" "home";
            mkRow 1 "github" "work"] !! 3 = Some v
    /\ In "work" (Labels v).
Proof.
  refine (proj2 (labels_and_name_selected_rows reversingEnv (New Conn) teamDB
                   "git*" "home" ["work"] _ reversingEnv_permutes _ 3 "work") _).
  - by vm_compute.
  - exists (mkSecret 3 "notes" "c"), (mkLabel 4 "work" 3).
    split; [right; right; by left|]. split; [right; right; right; by left|].
    repeat (split; [reflexivity|]). by left.
Defined.

(** ** The master key round trip *)

(** X15: on a store without a master key [QueryMasterKey] returns the
    empty string and [sql.ErrNoRows]; after [InsertMasterKey] it
    returns the key inserted, and the secrets and labels are as
    before. *)
Theorem master_key_round_trip (s : Store) (d : DB) (key : string) :
  master_key d = None ->
  result (QueryMasterKey s) d = ("", Some ErrNoRows)
  /\ result (andThen (InsertMasterKey s key) (fun _ => QueryMasterKey s)) d
     = (key, None)
  /\ secrets (after (InsertMasterKey s key) d) = secrets d
  /\ labels (after (InsertMasterKey s key) d) = labels d.
Proof.
  intros Hnone. unfold result, after. split; [|split; [|split]].
  - by rewrite run_QueryMasterKey, Hnone.
  - rewrite run_andThen, run_InsertMasterKey, Hnone.
    by rewrite run_QueryMasterKey.
  - by rewrite run_InsertMasterKey, Hnone.
  - by rewrite run_InsertMasterKey, Hnone.
Qed.

Lemma master_key_round_trip_witness :
  result (andThen (InsertMasterKey (New Conn) "k")
                  (fun _ => QueryMasterKey (New Conn))) notesDB
  = ("k", None).
Proof. apply (master_key_round_trip (New Conn) notesDB "k"). reflexivity. Defined.

(** ** The statements whose result is read *)

(** X16: [InsertNewSecret], [UpsertSecret], [InsertLabel] and [Secret]
    return the zero value with every error, and the error of the
    statement unchanged.  When the statement succeeds but the accessor
    read fails ([LastInsertId] for the inserts, [RowsAffected] for the
    upsert), that error is returned, with 0. *)
Theorem statement_errors_come_with_zero
    (s : Store) (name secret idText : string) (i : Z)
    (r : ExecResult + error) (row : Row) (res : ExecResult) (err : error) :
  zeroOnError r (answerExec (InsertNewSecret s name secret) r)
  /\ zeroOnError r (answerExec (UpsertSecret s idText secret) r)
  /\ zeroOnError r (answerExec (InsertLabel s name i) r)
  /\ (exists v e, answerRow (Secret s i) row = SRet (v, e)
                  /\ (e <> None -> v = "")
                  /\ (forall err', row = inr err' -> e = Some err'))
  /\ (lastInsertId res = inr err ->
      answerExec (InsertNewSecret s name secret) (inl res) = SRet (0, Some err)
      /\ answerExec (InsertLabel s name i) (inl res) = SRet (0, Some err))
  /\ (rowsAffected res = inr err ->
      answerExec (UpsertSecret s idText secret) (inl res) = SRet (0, Some err)).
Proof.
  unfold zeroOnError. split; [|split; [|split; [|split; [|split]]]].
  - destruct r as [[[li|le] ra]|e0]; cbn; eexists _, _;
      (split; [reflexivity|]); split; congruence.
  - destruct r as [[li [ra|re]]|e0]; cbn; eexists _, _;
      (split; [reflexivity|]); split; congruence.
  - destruct r as [[[li|le] ra]|e0]; cbn; eexists _, _;
      (split; [reflexivity|]); split; congruence.
  - destruct row as [payload|e0]; cbn; eexists _, _;
      (split; [reflexivity|]); split; congruence.
  - intros Hres. cbn. by rewrite Hres.
  - intros Hres. cbn. by rewrite Hres.
Qed.

Lemma statement_errors_come_with_zero_witness :
  answerExec (InsertNewSecret (New Conn) "gh" "pw")
    (inl {| lastInsertId := inr (DriverError "LastInsertId is not supported");
            rowsAffected := inl 1 |})
  = SRet (0, Some (DriverError "LastInsertId is not supported")).
Proof.
  apply (statement_errors_come_with_zero (New Conn) "gh" "pw" "1" 1
           (inr ErrNoRows) (inr ErrNoRows)
           {| lastInsertId := inr (DriverError "LastInsertId is not supported");
              rowsAffected := inl 1 |}
           (DriverError "LastInsertId is not supported")).
  reflexivity.
Defined.

Section Tables.

Lemma find_map_ext {S T : Type} (f : S -> T) (p : T -> bool) (q : S -> bool)
    (l : list S) :
  (forall x, p (f x) = q x) ->
  find p (map f l) = f <$> find q l.
Proof.
  intros H. induction l as [|x l IH]; [reflexivity|].
  cbn [map find]. rewrite H. destruct (q x); [reflexivity | exact IH].
Qed.

Lemma find_existsb {T : Type} (q : T -> bool) (l : list T) :
  existsb q l = false -> find q l = None.
Proof.
  induction l as [|x l IH]; [reflexivity|]. cbn [existsb find].
  destruct (q x); [discriminate | exact IH].
Qed.

Lemma find_existsb_true {T : Type} (q : T -> bool) (l : list T) :
  existsb q l = true -> exists x, find q l = Some x.
Proof.
  induction l as [|x l IH]; [discriminate|]. cbn [existsb find].
  destruct (q x); [by eexists | exact IH].
Qed.

Lemma keysOf_secrets (l : list secretRec) :
  keysOf "id" (map secretTuple l) = map sid l.
Proof. induction l as [|x l IH]; [reflexivity|]. cbn. by f_equal. Qed.

Lemma keysOf_labels (l : list labelRec) :
  keysOf "id" (map labelTuple l) = map lid l.
Proof. induction l as [|x l IH]; [reflexivity|]. cbn. by f_equal. Qed.

Lemma mapM_secrets (l : list secretRec) :
  mapM tupleSecret (map secretTuple l) = Some l.
Proof.
  apply mapM_Some_2. induction l as [|[i n p] l IH]; constructor; done.
Qed.

Lemma mapM_labels (l : list labelRec) :
  mapM tupleLabel (map labelTuple l) = Some l.
Proof.
  apply mapM_Some_2. induction l as [|[i n r] l IH]; constructor; done.
Qed.

Lemma mapM_snoc {S T : Type} (f : S -> option T) l x ys y :
  mapM f l = Some ys -> f x = Some y -> mapM f (l ++ [x]) = Some (ys ++ [y]).
Proof.
  intros Hl Hx. apply mapM_Some_2. apply mapM_Some_1 in Hl.
  apply Forall2_app; [done|]. by constructor.
Qed.

Lemma parse_insertSecret :
  parseInsert (tokenize "" insertSecret)
  = Some {| itable := "secrets"; icols := ["name"; "secret"];
            ivals := [ONamed "1"; ONamed "2"]; iconflict := None |}.
Proof. by vm_compute. Qed.

Lemma parse_insertLabel :
  parseInsert (tokenize "" insertLabel)
  = Some {| itable := "labels"; icols := ["name"; "secret_id"];
            ivals := [ONamed "1"; ONamed "2"];
            iconflict := Some (["name"; "secret_id"], DoNothing) |}.
Proof. by vm_compute. Qed.

Lemma parse_selectSecret :
  parseSelect (tokenize "" selectSecret)
  = Some {| scol := "secret"; stable := "secrets"; swhere := "id";
            sequals := ONamed "1" |}.
Proof. by vm_compute. Qed.

End Tables.

Section Writes.

Variable genId : list Z -> Z + error.
Variable staleRowid : DB -> Z.
Variable foreignKeys : bool.

Lemma execInsert_secret d name secret :
  execInsert genId foreignKeys d
    {| itable := "secrets"; icols := ["name"; "secret"];
       ivals := [ONamed "1"; ONamed "2"]; iconflict := None |}
    [AStr name; AStr secret]
  = match genId (map sid (secrets d)) with
    | inr err => (d, inr err)
    | inl k =>
        if hasSecret d k then (d, inr uniqueFailed)
        else ({| master_key := master_key d;
                 secrets := secrets d ++ [mkSecret k name secret];
                 labels := labels d |},
              inl {| newRowid := Some k; affected := 1 |})
    end.
Proof.
  unfold execInsert.
  cbn -[keysOf firstConflict setTable refsHold constraints].
  rewrite keysOf_secrets.
  destruct (genId (map sid (secrets d))) as [k|err]; [|reflexivity].
  cbn [firstConflict constraints tkey tunique].
  rewrite (find_map_ext secretTuple _ (fun sc => Z.eqb (sid sc) k))
    by (intros x; cbn; by rewrite andb_true_r, Z.eqb_sym).
  unfold hasSecret.
  destruct (existsb (fun sc => Z.eqb (sid sc) k) (secrets d)) eqn:Hex.
  - apply find_existsb_true in Hex as [x ->]. reflexivity.
  - rewrite (find_existsb _ _ Hex). cbn [fmap option_fmap option_map].
    cbn [refsHold trefs forallb negb]. rewrite andb_false_r.
    unfold setTable. cbn -[mapM].
    erewrite mapM_snoc; [reflexivity | apply mapM_secrets | reflexivity].
Qed.

Lemma run_InsertNewSecret s d name secret :
  runStmt genId staleRowid foreignKeys (InsertNewSecret s name secret) d =
    (match genId (map sid (secrets d)) with
     | inr err => ((0, Some err), d)
     | inl k =>
         if hasSecret d k then ((0, Some uniqueFailed), d)
         else ((k, None),
               {| master_key := master_key d;
                  secrets := secrets d ++ [mkSecret k name secret];
                  labels := labels d |})
     end,
     [(db s, insertSecret, [AStr name; AStr secret])]).
Proof.
  unfold InsertNewSecret. cbn [runStmt]. unfold engineStmtExec.
  rewrite parse_insertSecret, execInsert_secret.
  destruct (genId (map sid (secrets d))) as [k|err]; [|reflexivity].
  destruct (hasSecret d k); reflexivity.
Qed.

Lemma existsb_keys_secret d i :
  existsb (Z.eqb i) (map sid (secrets d)) = hasSecret d i.
Proof.
  unfold hasSecret. induction (secrets d) as [|x l IH]; [reflexivity|].
  cbn [map existsb]. by rewrite IH, Z.eqb_sym.
Qed.

Lemma execInsert_label d name i :
  execInsert genId foreignKeys d
    {| itable := "labels"; icols := ["name"; "secret_id"];
       ivals := [ONamed "1"; ONamed "2"];
       iconflict := Some (["name"; "secret_id"], DoNothing) |}
    [AStr name; AInt i]
  = match genId (map lid (labels d)) with
    | inr err => (d, inr err)
    | inl k =>
        if existsb (fun l => Z.eqb (lid l) k) (labels d)
        then (d, inr uniqueFailed)
        else if hasLabel d name i
        then (d, inl {| newRowid := None; affected := 0 |})
        else if (foreignKeys && negb (hasSecret d i))%bool
        then (d, inr foreignKeyFailed)
        else ({| master_key := master_key d;
                 secrets := secrets d;
                 labels := labels d ++ [mkLabel k name i] |},
              inl {| newRowid := Some k; affected := 1 |})
    end.
Proof.
  unfold execInsert.
  cbn -[keysOf firstConflict setTable refsHold constraints].
  rewrite keysOf_labels.
  destruct (genId (map lid (labels d))) as [k|err]; [|reflexivity].
  cbn [firstConflict constraints tkey tunique].
  rewrite (find_map_ext labelTuple _ (fun l => Z.eqb (lid l) k))
    by (intros x; cbn; by rewrite andb_true_r, Z.eqb_sym).
  destruct (existsb (fun l => Z.eqb (lid l) k) (labels d)) eqn:Hex.
  { apply find_existsb_true in Hex as [x ->]. reflexivity. }
  rewrite (find_existsb _ _ Hex). cbn [fmap option_fmap option_map].
  rewrite (find_map_ext labelTuple _
             (fun l => (String.eqb (lname l) name && Z.eqb (lsecret l) i)%bool))
    by (intros x; cbn; by rewrite andb_true_r, String.eqb_sym, Z.eqb_sym).
  unfold hasLabel.
  destruct (existsb (fun l => (String.eqb (lname l) name
                               && Z.eqb (lsecret l) i)%bool) (labels d)) eqn:Hl.
  { apply find_existsb_true in Hl as [x ->]. reflexivity. }
  rewrite (find_existsb _ _ Hl). cbn [fmap option_fmap option_map].
  assert (refsHold d
            {| tname := "labels"; tcols := ["id"; "name"; "secret_id"];
               tkey := "id"; tunique := [["name"; "secret_id"]];
               trefs := [("secret_id", "secrets")] |}
            [("id", VInt k); ("name", VText name); ("secret_id", VInt i)]
          = hasSecret d i) as ->.
  { unfold refsHold. cbn -[keysOf]. rewrite keysOf_secrets.
    by rewrite andb_true_r, existsb_keys_secret. }
  destruct (foreignKeys && negb (hasSecret d i))%bool; [reflexivity|].
  unfold setTable. cbn -[mapM].
  erewrite mapM_snoc; [reflexivity | apply mapM_labels | reflexivity].
Qed.

Lemma run_InsertLabel s d name i :
  runStmt genId staleRowid foreignKeys (InsertLabel s name i) d =
    (match genId (map lid (labels d)) with
     | inr err => ((0, Some err), d)
     | inl k =>
         if existsb (fun l => Z.eqb (lid l) k) (labels d)
         then ((0, Some uniqueFailed), d)
         else if hasLabel d name i then ((staleRowid d, None), d)
         else if (foreignKeys && negb (hasSecret d i))%bool
         then ((0, Some foreignKeyFailed), d)
         else ((k, None),
               {| master_key := master_key d;
                  secrets := secrets d;
                  labels := labels d ++ [mkLabel k name i] |})
     end,
     [(db s, insertLabel, [AStr name; AInt i])]).
Proof.
  unfold InsertLabel. cbn [runStmt]. unfold engineStmtExec.
  rewrite parse_insertLabel, execInsert_label.
  destruct (genId (map lid (labels d))) as [k|err]; [|reflexivity].
  destruct (existsb _ (labels d)); [reflexivity|].
  destruct (hasLabel d name i); [reflexivity|].
  destruct (foreignKeys && negb (hasSecret d i))%bool; reflexivity.
Qed.

Lemma run_Secret s d i :
  runStmt genId staleRowid foreignKeys (Secret s i) d =
    (match find (fun sc => Z.eqb (sid sc) i) (secrets d) with
     | Some sc => (spayload sc, None)
     | None => ("", Some ErrNoRows)
     end, d, [(db s, selectSecret, [AInt i])]).
Proof.
  unfold Secret. cbn [runStmt]. unfold engineStmtQueryRow, engineQueryRow.
  rewrite parse_selectSecret. unfold execSelectRow.
  cbn -[find].
  rewrite (find_map_ext secretTuple _ (fun sc => Z.eqb (sid sc) i))
    by (intros x; reflexivity).
  by destruct (find _ (secrets d)) as [[k n p]|].
Qed.

Lemma hasSecret_In d i :
  hasSecret d i = true <-> exists sc, In sc (secrets d) /\ sid sc = i.
Proof.
  unfold hasSecret. rewrite existsb_exists.
  split; intros (sc & Hin & Heq); exists sc; (split; [done|]);
    by apply Z.eqb_eq.
Qed.

Lemma hasLabel_In d name i :
  hasLabel d name i = true
  <-> exists l, In l (labels d) /\ lname l = name /\ lsecret l = i.
Proof.
  unfold hasLabel. rewrite existsb_exists. split.
  - intros (l & Hin & Heq). apply andb_prop in Heq as [H1 H2].
    exists l. split; [done|]. split; [by apply String.eqb_eq | by apply Z.eqb_eq].
  - intros (l & Hin & <- & <-). exists l. split; [done|].
    by rewrite String.eqb_refl, Z.eqb_refl.
Qed.

Lemma find_none_hasSecret d i :
  hasSecret d i = false -> find (fun sc => Z.eqb (sid sc) i) (secrets d) = None.
Proof.
  unfold hasSecret. induction (secrets d) as [|sc l IH]; [done|].
  simpl. destruct (Z.eqb (sid sc) i); [done|]. exact IH.
Qed.

Lemma find_app_old d i extra :
  hasSecret d i = true ->
  find (fun sc => Z.eqb (sid sc) i) (secrets d ++ extra)
  = find (fun sc => Z.eqb (sid sc) i) (secrets d).
Proof.
  unfold hasSecret. induction (secrets d) as [|sc l IH]; [done|].
  simpl. destruct (Z.eqb (sid sc) i); [done|]. exact IH.
Qed.

Lemma find_app_new d i extra :
  hasSecret d i = false ->
  find (fun sc => Z.eqb (sid sc) i) (secrets d ++ extra)
  = find (fun sc => Z.eqb (sid sc) i) extra.
Proof.
  unfold hasSecret. induction (secrets d) as [|sc l IH]; [done|].
  simpl. destruct (Z.eqb (sid sc) i); [done|]. exact IH.
Qed.

Lemma filter_none {T : Type} (f : T -> bool) (l : list T) :
  (forall x, In x l -> f x = false) -> List.filter f l = [].
Proof.
  induction l as [|x l IH]; intros H; [done|]. simpl.
  rewrite (H x) by (by left). apply IH. intros y Hy. apply H. by right.
Qed.

Lemma filter_every {T : Type} (f : T -> bool) (l : list T) :
  (forall x, In x l -> f x = true) -> List.filter f l = l.
Proof.
  induction l as [|x l IH]; intros H; [done|]. simpl.
  rewrite (H x) by (by left). f_equal. apply IH. intros y Hy. apply H. by right.
Qed.

(** The rows of a secret just inserted under the id [i], once the
    labels [extra] have been added: those of [extra] that refer to it. *)
Lemma joined_new_secret d i name secret extra :
  hasSecret d i = false ->
  (forall l, In l (labels d) -> lsecret l <> i) ->
  List.filter (fun sl => inIds [i] (sid (fst sl)))
    (joined {| master_key := master_key d;
               secrets := secrets d ++ [mkSecret i name secret];
               labels := labels d ++ extra |})
  = map (pair (mkSecret i name secret))
        (List.filter (fun l => Z.eqb (lsecret l) i) extra).
Proof.
  intros Hfresh Hrefs. unfold joined. cbn [secrets labels].
  rewrite flat_map_app, List.filter_app. cbn [flat_map sid].
  rewrite app_nil_r, (List.filter_app _ (labels d) extra).
  rewrite (filter_none _ (labels d)); [|].
  2:{ intros l Hl. apply Z.eqb_neq. by apply Hrefs. }
  cbn [app]. rewrite filter_none.
  - cbn [app]. apply filter_every. intros [sc l] Hin.
    apply in_map_iff in Hin as (l' & [= <- <-] & _).
    cbn [inIds existsb fst sid]. by rewrite Z.eqb_refl.
  - intros [sc l] Hin. apply in_flat_map in Hin as (sc' & Hsc & Hin).
    apply in_map_iff in Hin as (l' & [= <- <-] & _).
    cbn [inIds existsb fst]. rewrite orb_false_r. apply Z.eqb_neq.
    intros Heq. assert (hasSecret d i = true) as Hhas; [|congruence].
    apply hasSecret_In. by exists sc'.
Qed.



End Writes.

(** X17: [InsertNewSecret] on an engine that generates a key the
    table does not hold (or fails to): it returns the generated key
    and no error, or 0 and the generator's error; a failed call leaves
    the database as it was; after a successful one the id returned was
    unknown to [Secret] before and reads back the payload inserted,
    every secret stored before reads as before, the ids stay distinct,
    and labels and master key are untouched. *)
Theorem InsertNewSecret_then_Secret
    (genId : list Z -> Z + error) (staleRowid : DB -> Z) (foreignKeys : bool)
    (s : Store) (d : DB) (name secret : string) :
  genFresh genId ->
  NoDup (map sid (secrets d)) ->
  let d' := stmtAfter genId staleRowid foreignKeys
              (InsertNewSecret s name secret) d in
  stmtResult genId staleRowid foreignKeys (InsertNewSecret s name secret) d
    = match genId (map sid (secrets d)) with
      | inl k => (k, None)
      | inr err => (0, Some err)
      end
  /\ (snd (stmtResult genId staleRowid foreignKeys
             (InsertNewSecret s name secret) d) <> None -> d' = d)
  /\ forall i,
       stmtResult genId staleRowid foreignKeys
         (InsertNewSecret s name secret) d = (i, None) ->
       hasSecret d i = false
       /\ stmtResult genId staleRowid foreignKeys (Secret s i) d
          = ("", Some ErrNoRows)
       /\ stmtResult genId staleRowid foreignKeys (Secret s i) d'
          = (secret, None)
       /\ (forall j, hasSecret d j = true ->
                     stmtResult genId staleRowid foreignKeys (Secret s j) d'
                     = stmtResult genId staleRowid foreignKeys (Secret s j) d)
       /\ NoDup (map sid (secrets d'))
       /\ labels d' = labels d
       /\ master_key d' = master_key d.
Proof.
  intros Hgen Hnodup d'. subst d'. unfold stmtResult, stmtAfter.
  rewrite run_InsertNewSecret. cbn [fst snd].
  destruct (genId (map sid (secrets d))) as [k|err] eqn:Hk;
    [|split; [done|by split]].
  assert (hasSecret d k = false) as Hfresh.
  { apply not_true_is_false. intros H.
    apply hasSecret_In in H as (sc & Hin & Heq).
    apply (Hgen _ _ Hk). rewrite <- Heq. by apply in_map. }
  rewrite Hfresh. cbn [fst snd]. split; [done|]. split; [done|].
  intros i [= <-]. split; [done|].
  rewrite !run_Secret. cbn [fst secrets].
  split; [by rewrite find_none_hasSecret|]. split.
  { rewrite find_app_new by done. cbn [find sid]. by rewrite Z.eqb_refl. }
  split.
  { intros j Hj. rewrite !run_Secret. cbn [fst secrets].
    by rewrite find_app_old. }
  split; [|done].
  rewrite map_app. cbn [map sid].
  apply NoDup_app. split; [done|]. split.
  - intros x Hx Hk'. apply list_elem_of_singleton in Hk' as ->.
    apply (Hgen _ _ Hk). by apply list_elem_of_In.
  - apply NoDup_singleton.
Qed.

Lemma rowidAfter_fresh : genFresh rowidAfter.
Proof.
  intros ids i. unfold rowidAfter.
  destruct (Z.ltb_spec (fold_right Z.max 0 ids) 9223372036854775807);
    [|discriminate].
  intros [= <-] Hin.
  assert (forall l x, In x l -> x <= fold_right Z.max 0 l) as Hmax.
  { induction l as [|y l IH]; [done|]. intros x [->|Hx]; simpl; [lia|].
    specialize (IH x Hx). lia. }
  specialize (Hmax _ _ Hin). lia.
Qed.

Lemma InsertNewSecret_then_Secret_witness :
  stmtResult rowidAfter (fun _ => 0) true (Secret (New Conn) 5)
    (stmtAfter rowidAfter (fun _ => 0) true
       (InsertNewSecret (New Conn) "slack" "pw") teamDB)
  = ("pw", None).
Proof.
  refine (proj1 (proj2 (proj2
            (proj2 (proj2 (InsertNewSecret_then_Secret rowidAfter
                             (fun _ => 0) true (New Conn) teamDB "slack" "pw"
                             rowidAfter_fresh _))
                   5 _)))).
  - apply (bool_decide_unpack _). by vm_compute.
  - reflexivity.
Defined.



(** X19: on a database whose labels all belong to stored secrets,
    after [InsertNewSecret] has returned the id [i]: whenever
    [SecretsByIDs] of [i] returns a mapping, on any engine, it is
    empty; and after [InsertLabel] of a label for [i] has returned no
    error it is the single entry of [i] with the name inserted and
    that one label. *)
Theorem saved_secret_is_found_once_labelled
    (env : engineEnv)
    (genId : list Z -> Z + error) (staleRowid : DB -> Z) (foreignKeys : bool)
    (s : Store) (d : DB) (name secret lbl : string) (i : Z) :
  planPermutes env ->
  genFresh genId ->
  (forall l, In l (labels d) -> hasSecret d (lsecret l) = true) ->
  stmtResult genId staleRowid foreignKeys (InsertNewSecret s name secret) d
    = (i, None) ->
  let d1 := stmtAfter genId staleRowid foreignKeys
              (InsertNewSecret s name secret) d in
  (forall m, searchIn env (SecretsByIDs s [i]) d1 = Ret (Some m, None) ->
             m = ∅)
  /\ (forall li m,
        stmtResult genId staleRowid foreignKeys (InsertLabel s lbl i) d1
          = (li, None) ->
        searchIn env (SecretsByIDs s [i])
          (stmtAfter genId staleRowid foreignKeys (InsertLabel s lbl i) d1)
          = Ret (Some m, None) ->
        m = {[ i := {| Name := name; Labels := [lbl] |} ]}).
Proof.
  intros Hplan Hgen Hrefs Hins d1. subst d1.
  unfold stmtResult, stmtAfter in *.
  rewrite run_InsertNewSecret in *. cbn [fst snd] in *.
  destruct (genId (map sid (secrets d))) as [k|err] eqn:Hk; [|discriminate].
  assert (hasSecret d k = false) as Hfresh.
  { apply not_true_is_false. intros H.
    apply hasSecret_In in H as (sc & Hin & Heq).
    apply (Hgen _ _ Hk). rewrite <- Heq. by apply in_map. }
  rewrite Hfresh in *. cbn [fst snd] in *. injection Hins as <-.
  assert (forall l, In l (labels d) -> lsecret l <> k) as Hno.
  { intros l Hl Heq. specialize (Hrefs l Hl). congruence. }
  set (d1 := {| master_key := master_key d;
                secrets := secrets d ++ [mkSecret k name secret];
                labels := labels d |}).
  split.
  - intros m Hm. unfold SecretsByIDs in Hm.
    apply searchIn_mapping in Hm as (rows & Hsel & ->).
    pose proof (selectIn_ids (globOf env) d1 k []) as Hids.
    pose proof (joined_new_secret d k name secret [] Hfresh Hno) as Hj.
    rewrite app_nil_r in Hj. subst d1. rewrite Hj in Hids.
    unfold ToAnySlice in *. rewrite Hids in Hsel. injection Hsel as <-.
    cbn [List.filter map].
    by rewrite (proj1 (Permutation_nil_r _) (Hplan _ [])).
  - intros li m Hlab Hm.
    assert (hasLabel d1 lbl k = false) as Hlbl.
    { apply not_true_is_false. intros H.
      apply hasLabel_In in H as (l & Hl & _ & Heq). by apply (Hno l). }
    rewrite run_InsertLabel in Hlab, Hm. cbn [fst snd] in Hlab, Hm.
    destruct (genId (map lid (labels d1))) as [k'|err]; [|discriminate].
    destruct (existsb _ (labels d1)); [discriminate|].
    rewrite Hlbl in Hlab, Hm.
    destruct (foreignKeys && negb (hasSecret d1 k))%bool; [discriminate|].
    cbn [fst snd] in Hm. unfold SecretsByIDs in Hm.
    apply searchIn_mapping in Hm as (rows & Hsel & ->).
    match type of Hsel with
    | selectIn _ ?d2 _ _ = _ =>
        pose proof (selectIn_ids (globOf env) d2 k []) as Hids
    end.
    pose proof (joined_new_secret d k name secret [mkLabel k' lbl k] Hfresh Hno)
      as Hj.
    subst d1. cbn [master_key secrets labels] in Hids, Hsel.
    rewrite Hj in Hids.
    unfold ToAnySlice in *. rewrite Hids in Hsel. injection Hsel as <-.
    cbn [List.filter lsecret]. rewrite Z.eqb_refl. cbn [map].
    match goal with
    | |- context [planOf env ?q ?l] =>
        pose proof (Permutation_length_1_inv (Permutation_sym (Hplan q l)))
          as ->
    end.
    unfold reduce, joinRow. cbn [map fold_left fst snd sid sname lname].
    unfold reduce_step. cbn [id]. rewrite lookup_empty.
    by rewrite insert_empty.
Qed.

Lemma saved_secret_is_found_once_labelled_witness :
  reduce [mkRow 5 "slack" "chat"]
  = {[ 5 := {| Name := "slack"; Labels := ["chat"] |} ]}.
Proof.
  refine (proj2 (saved_secret_is_found_once_labelled reversingEnv rowidAfter
                   (fun _ => 0) true (New Conn) teamDB "slack" "pw" "chat" 5
                   reversingEnv_permutes rowidAfter_fresh _ _)
                5 _ _ _).
  - intros l Hl. cbn in Hl.
    repeat (destruct Hl as [<-|Hl]; [reflexivity|]). destruct Hl.
  - reflexivity.
  - reflexivity.
  - by vm_compute.
Defined.

(** ** The command-line helpers *)

(** X20: [RejectDisallowedFlags] returns nil exactly when none of the
    names is a flag set on the command line; otherwise its error names
    the first such flag, in the order given, and the command. *)
Theorem RejectDisallowedFlags_first_changed
    (cmd : Command) (disallowed : list string) :
  (RejectDisallowedFlags cmd disallowed = None
   <-> forall n, In n disallowed -> flagChanged cmd n = false)
  /\ (forall msg,
        RejectDisallowedFlags cmd disallowed = Some msg ->
        exists before n rest,
          disallowed = before ++ n :: rest
          /\ (forall x, In x before -> flagChanged cmd x = false)
          /\ flagChanged cmd n = true
          /\ msg = notAllowed n (CmdName cmd)).
Proof.
  induction disallowed as [|n ns [IHnone IHsome]].
  - split; [done|]. intros msg [=].
  - cbn [RejectDisallowedFlags]. destruct (flagChanged cmd n) eqn:Hn.
    + split.
      * split; [done|]. intros H. specialize (H n (or_introl eq_refl)). congruence.
      * intros msg [= <-]. exists [], n, ns. done.
    + split.
      * rewrite IHnone. split.
        -- intros H x [<-|Hx]; [done | by apply H].
        -- intros H x Hx. apply H. by right.
      * intros msg Hmsg.
        destruct (IHsome msg Hmsg) as (before & x & rest & -> & Hb & Hx & ->).
        exists (n :: before), x, rest. split; [done|]. split; [|done].
        intros y [<-|Hy]; [done | by apply Hb].
Qed.

Section HideFlags.

Lemma hideFlag_name cmd n : CmdName (hideFlag cmd n) = CmdName cmd.
Proof. unfold hideFlag. by destruct (Flags cmd !! n). Qed.

Lemma hideFlag_lookup cmd n x :
  Flags (hideFlag cmd n) !! x =
    match Flags cmd !! x with
    | Some f =>
        Some (if decide (x = n)
              then {| Changed := Changed f; Hidden := true |} else f)
    | None => None
    end.
Proof.
  unfold hideFlag. destruct (decide (x = n)) as [->|Hne].
  - destruct (Flags cmd !! n) as [f|] eqn:Hf; cbn [Flags].
    + by rewrite lookup_insert_eq.
    + by rewrite Hf.
  - destruct (Flags cmd !! n) as [f|] eqn:Hf; cbn [Flags].
    + rewrite lookup_insert_ne by done. by destruct (Flags cmd !! x).
    + by destruct (Flags cmd !! x).
Qed.

End HideFlags.

(** X21: the help function [MarkFlagsHidden] installs hides the flags
    named that exist, skips the names without a flag, leaves every
    other flag, the [Changed] marks and the command's name as they
    were, and then calls the help function that was there.  Marking
    twice hides the flags of both lists. *)
Theorem MarkFlagsHidden_hides_named_flags
    {W : Type} (f : Command -> list string -> W)
    (hidden more : list string) (cmd : Command) (args : list string) :
  (forall x,
      Flags (hideFlags hidden cmd) !! x =
        match Flags cmd !! x with
        | Some fl =>
            Some (if decide (x ∈ hidden)
                  then {| Changed := Changed fl; Hidden := true |} else fl)
        | None => None
        end)
  /\ CmdName (hideFlags hidden cmd) = CmdName cmd
  /\ MarkFlagsHidden f hidden cmd args = f (hideFlags hidden cmd) args
  /\ MarkFlagsHidden (MarkFlagsHidden f hidden) more cmd args
     = MarkFlagsHidden f (more ++ hidden) cmd args.
Proof.
  split; [|split; [|split]].
  - unfold hideFlags. revert cmd.
    induction hidden as [|n ns IH]; intros cmd x.
    + cbn [fold_left]. destruct (Flags cmd !! x) as [fl|]; [|done].
      rewrite decide_False; [done | apply not_elem_of_nil].
    + cbn [fold_left]. rewrite IH, hideFlag_lookup.
      destruct (Flags cmd !! x) as [fl|]; [|done]. f_equal.
      destruct (decide (x = n)) as [->|Hne].
      * rewrite (decide_True (P := n ∈ n :: ns)) by apply list_elem_of_here.
        by destruct (decide (n ∈ ns)).
      * destruct (decide (x ∈ ns)) as [Hin|Hnin].
        -- rewrite (decide_True (P := x ∈ n :: ns)); [done|].
           by apply list_elem_of_further.
        -- rewrite (decide_False (P := x ∈ n :: ns)); [done|].
           rewrite elem_of_cons. by intros [?|?].
  - unfold hideFlags. revert cmd.
    induction hidden as [|n ns IH]; intros cmd; [done|].
    cbn [fold_left]. by rewrite IH, hideFlag_name.
  - reflexivity.
  - unfold MarkFlagsHidden, hideFlags. by rewrite fold_left_app.
Qed.
